(** * OpenSim control-allocation core: actuators, controllers, factorizer

    A shallow embedding of

    - [OpenSim/Actuators/CoordinateActuator.cpp] (translated from the source),
    - the Prescribed and Synergy controllers and the non-negative matrix
      factorizer (their bodies are not part of the sources at hand; they are
      modelled from the design document and marked as such),

    followed by the properties stated about them.

    Scalars.  The C++ [double] is read as an exact rational ([Q]): every
    arithmetic operation of the sources is the corresponding operation of
    [Q], equality of scalars is [Qeq] ([==]).  Rounding, infinities and NaN
    are outside this model.  [x / 0] is [0] in [Q]; no statement below
    rests on that value: wherever a quotient matters, its divisor is
    nonzero by hypothesis. *)

From Stdlib Require Import QArith Qabs NArith List String Ascii Arith Lia Lqa.
Import ListNotations.

(* ================================================================== *)
(** * Exceptions and outcomes of methods that mutate their receiver     *)
(* ================================================================== *)

(** [OpenSim::Exception], carrying its message. *)
Inductive Exception : Type :=
| mkException (msg : string).

(** What a [void] method leaves behind: the receiver as it is when the
    method returns, or the receiver as it is at the [throw] together with
    the exception. *)
Inductive outcome (A : Type) : Type :=
| Returned (this : A)
| Threw (e : Exception) (this : A).

Arguments Returned {A} this.
Arguments Threw {A} e this.

Definition receiver {A : Type} (o : outcome A) : A :=
  match o with
  | Returned this => this
  | Threw _ this => this
  end.

Definition thrown {A : Type} (o : outcome A) : option Exception :=
  match o with
  | Returned _ => None
  | Threw e _ => Some e
  end.

Definition fails {A : Type} (o : outcome A) : bool :=
  match o with
  | Returned _ => false
  | Threw _ _ => true
  end.

(* ================================================================== *)
(** * SimTK data                                                        *)
(* ================================================================== *)

Module SimTK.

Definition Vector : Type := list Q.
Definition Vec3 : Type := (Q * Q * Q)%type.
Definition SpatialVec : Type := (Vec3 * Vec3)%type.

(** Modelled from the spec: the state-dependent attributes of one actuator
    (section 3, Actuator): [control], the last-set control value; [force],
    the last computed or overridden force; [overridden]; and the override
    value used while [overridden] holds.  [Actuator.h], which stores them
    in the state, is not among the sources. *)
Record ActuatorEntry : Type := mkActuatorEntry {
  control : Q;
  force : Q;
  overridden : bool;
  overrideForce : Q
}.

(** Modelled from the spec: the evaluation state, "time plus whatever
    state-dependent quantities the actuator needs" (section 6).  The
    per-actuator entries are keyed by the actuator's name. *)
Record State : Type := mkState {
  getTime : Q;
  entries : string -> ActuatorEntry
}.

End SimTK.

(* ================================================================== *)
(** * Model, coordinates                                                *)
(* ================================================================== *)

(** [Coordinate.h], [CoordinateSet.h] and [Model.h] are not among the
    sources; what [CoordinateActuator.cpp] uses of them is kept: a
    coordinate has a name (and stands for one mobility), a coordinate set
    is searched by name, a model has a coordinate set. *)
Record Coordinate : Type := mkCoordinate {
  Coordinate_getName : string;
  mobilityIndex : nat
}.

Definition CoordinateSet : Type := list Coordinate.

Module Set_.
(** [Set<T>::contains(name)]. *)
Definition contains (cs : CoordinateSet) (aName : string) : bool :=
  existsb (fun c => String.eqb (Coordinate_getName c) aName) cs.

(** [Set<T>::get(name)]: the first member of that name. *)
Definition get (cs : CoordinateSet) (aName : string) : option Coordinate :=
  find (fun c => String.eqb (Coordinate_getName c) aName) cs.
End Set_.

Record Model : Type := mkModel {
  updCoordinateSet : CoordinateSet
}.

(* ================================================================== *)
(** * CoordinateActuator.cpp                                            *)
(* ================================================================== *)

Module CoordinateActuator.

(** The object: the name inherited from [Object], the two pointers
    ([NULL] is [None]) and the two properties declared by
    [setupProperties]. *)
Record t : Type := mk {
  getName : string;
  _model : option Model;
  _coord : option Coordinate;
  coordinate : string;
  optimal_force : Q
}.

Definition setName (aName : string) (this : t) : t :=
  mk aName (_model this) (_coord this) (coordinate this) (optimal_force this).

(** [setPropertyValue("coordinate", v)] and
    [setPropertyValue("optimal_force", v)]. *)
Definition setPropertyValue_coordinate (v : string) (this : t) : t :=
  mk (getName this) (_model this) (_coord this) v (optimal_force this).

Definition setPropertyValue_optimal_force (v : Q) (this : t) : t :=
  mk (getName this) (_model this) (_coord this) (coordinate this) v.

Definition set_coord (c : option Coordinate) (this : t) : t :=
  mk (getName this) (_model this) c (coordinate this) (optimal_force this).

(** [setupProperties]: "coordinate" defaults to the empty string,
    "optimal_force" to 1.0. *)
Definition setupProperties (this : t) : t :=
  mk (getName this) (_model this) (_coord this) EmptyString 1.

Definition setNull (this : t) : t := setupProperties this.

(** [CoordinateActuator(aCoordinateName)]: the base constructor leaves the
    name empty and [_model] null, [_coord(NULL)]; with [_model] null the
    lookup in the body is skipped. *)
Definition new (aCoordinateName : string) : t :=
  let this := mk EmptyString None None EmptyString 0 in
  let this := setNull this in
  let this := setPropertyValue_coordinate aCoordinateName this in
  match _model this with
  | Some m => set_coord (Set_.get (updCoordinateSet m) aCoordinateName) this
  | None => this
  end.

(** [setCoordinate]. *)
Definition setCoordinate (aCoordinate : option Coordinate) (this : t) : t :=
  let this := set_coord aCoordinate this in
  match aCoordinate with
  | Some c => setPropertyValue_coordinate (Coordinate_getName c) this
  | None => this
  end.

Definition getCoordinate (this : t) : option Coordinate := _coord this.

(** [setOptimalForce]: one unconditional property write; there is no
    [throw] on this path. *)
Definition setOptimalForce (aOptimalForce : Q) (this : t) : outcome t :=
  Returned (setPropertyValue_optimal_force aOptimalForce this).

Definition getOptimalForce (this : t) : Q := optimal_force this.

(** Modelled from the spec: the accessors of the [Actuator] base class
    ([Actuator.h] is not among the sources), reading and writing this
    actuator's entry of the state. *)
Definition entry (this : t) (s : SimTK.State) : SimTK.ActuatorEntry :=
  SimTK.entries s (getName this).

Definition getControl (this : t) (s : SimTK.State) : Q :=
  SimTK.control (entry this s).

Definition getForce (this : t) (s : SimTK.State) : Q :=
  SimTK.force (entry this s).

Definition isForceOverriden (this : t) (s : SimTK.State) : bool :=
  SimTK.overridden (entry this s).

Definition computeOverrideForce (this : t) (s : SimTK.State) : Q :=
  SimTK.overrideForce (entry this s).

Definition setForce (this : t) (s : SimTK.State) (aForce : Q) : SimTK.State :=
  let e := entry this s in
  SimTK.mkState (SimTK.getTime s)
    (fun n =>
       if String.eqb n (getName this)
       then SimTK.mkActuatorEntry (SimTK.control e) aForce
              (SimTK.overridden e) (SimTK.overrideForce e)
       else SimTK.entries s n).

(** [getStress]: [fabs(getForce(s) / optimal_force)]. *)
Definition getStress (this : t) (s : SimTK.State) : Q :=
  Qabs (getForce this s / optimal_force this).

(** [computeActuation]. *)
Definition computeActuation (this : t) (s : SimTK.State) : Q :=
  match _model this with
  | None => 0
  | Some _ => getControl this s * optimal_force this
  end.

(** [isCoordinateValid]. *)
Definition isCoordinateValid (this : t) : bool :=
  match _model this, _coord this with
  | Some _, Some _ => true
  | _, _ => false
  end.

(** What [computeForce] reads and writes: the state (whose cache it
    updates), the two force accumulators passed by reference, and the
    lines written to [std::cout]. *)
Record Env : Type := mkEnv {
  state : SimTK.State;
  bodyForces : list SimTK.SpatialVec;
  mobilityForces : SimTK.Vector;
  cout : list string
}.

(** The force an evaluation settles on: the override value when the force
    is overridden, the actuation otherwise. *)
Definition settledForce (this : t) (s : SimTK.State) : Q :=
  if isForceOverriden this s
  then computeOverrideForce this s
  else computeActuation this s.

(** The line [computeForce] writes for an invalid coordinate. *)
Definition invalidCoordinateReport : string :=
  "CoordinateActuator::computeForce  Invalid coordinate ".

Section Application.

(** [Force::applyGeneralizedForce], of the base class [Force], is not
    among the sources: it is a parameter of the embedding. *)
Variable applyGeneralizedForce :
  SimTK.State -> Coordinate -> Q -> SimTK.Vector -> SimTK.Vector.

(** [computeForce]. *)
Definition computeForce (this : t) (env : Env) : Env :=
  match _model this with
  | None => env
  | Some _ =>
      let s := state env in
      let force :=
        if isForceOverriden this s
        then computeOverrideForce this s
        else computeActuation this s in
      let s := setForce this s force in
      if isCoordinateValid this
      then
        match _coord this with
        | Some coord =>
            mkEnv s (bodyForces env)
              (applyGeneralizedForce s coord (getForce this s)
                 (mobilityForces env))
              (cout env)
        | None =>
            (* [*_coord] of a null pointer: excluded by
               [isCoordinateValid]. *)
            mkEnv s (bodyForces env) (mobilityForces env) (cout env)
        end
      else
        mkEnv s (bodyForces env) (mobilityForces env)
          (cout env ++ [invalidCoordinateReport])
  end.

(** Modelled from the spec: the external driver "calls [computeForce]
    once per evaluation, per actuator" (section 6), threading the state
    and the accumulators through the batch. *)
Definition computeForces (batch : list t) (env : Env) : Env :=
  fold_left (fun e a => computeForce a e) batch env.

End Application.

(** Modelled from the spec: [Actuator::setup] of the base class attaches
    the actuator to the model context ([Actuator.cpp] is not among the
    sources). *)
Definition Actuator_setup (aModel : Model) (this : t) : t :=
  mk (getName this) (Some aModel) (_coord this) (coordinate this)
     (optimal_force this).

Definition invalidCoordinateMessage (coordName actuatorName : string)
  : string :=
  ("CoordinateActuator: Invalid coordinate (" ++ coordName
     ++ ") specified in Actuator " ++ actuatorName)%string.

(** [setup].  The base-class call comes first, so an exception leaves the
    actuator attached to the model with [_coord] as it was. *)
Definition setup (aModel : Model) (this : t) : outcome t :=
  let coordName := coordinate this in
  let this := Actuator_setup aModel this in
  match _model this with
  | None => Returned this (* not reached: the base call set [_model] *)
  | Some m =>
      if negb (Set_.contains (updCoordinateSet m) coordName)
      then Threw
             (mkException
                (invalidCoordinateMessage coordName (getName this)))
             this
      else Returned
             (set_coord (Set_.get (updCoordinateSet m) coordName) this)
  end.

(** Section 7 names the error classes; in the sources each is an
    [Exception] told apart by its message.  The unresolved-reference
    error is the one [setup] throws. *)
Definition UnresolvedReferenceError (e : Exception) : Prop :=
  exists coordName actuatorName,
    e = mkException (invalidCoordinateMessage coordName actuatorName).

(** [check]: the verdict and the lines printed. *)
Definition check (this : t) : bool * list string :=
  if negb (isCoordinateValid this)
  then (false,
        [("CoordinateActuator.check: ERROR- " ++ getName this
            ++ " actuates ")%string;
         ("an invalid generalized coordinate (" ++ coordinate this
            ++ ").")%string])
  else (true, []).

(** [copyData]. *)
Definition copyData (aGenForce : t) (this : t) : outcome t :=
  let this := setPropertyValue_coordinate (coordinate aGenForce) this in
  let this := setCoordinate (getCoordinate aGenForce) this in
  setOptimalForce (getOptimalForce aGenForce) this.

Section FromXML.

(** [Actuator::updateFromXMLNode], of the base class, reads the object
    from its XML node and is not among the sources: it is a parameter of
    the embedding, and so is the type of XML nodes. *)
Variable XmlElement : Type.
Variable Actuator_updateFromXMLNode : XmlElement -> Z -> t -> t.

(** [updateFromXMLNode]. *)
Definition updateFromXMLNode
    (aNode : XmlElement) (versionNumber : Z) (this : t) : t :=
  let this := Actuator_updateFromXMLNode aNode versionNumber this in
  setCoordinate (_coord this) this.

End FromXML.

(** The coordinate name held as a property is the name of the bound
    coordinate, whenever one is bound. *)
Definition nameMatchesCoordinate (this : t) : Prop :=
  forall c, _coord this = Some c -> coordinate this = Coordinate_getName c.

(** [_model != NULL]. *)
Definition isAttached (this : t) : bool :=
  match _model this with
  | Some _ => true
  | None => false
  end.

(** Modelled from the spec: attaching a set of actuators to a model
    context resolves every member, in order (section 3, Lifecycle);
    [ForceSet::setup] is not among the sources.  An exception of one
    member leaves the members after it as they were. *)
Fixpoint ForceSet_setup (aModel : Model) (forces : list t)
  : outcome (list t) :=
  match forces with
  | [] => Returned []
  | a :: rest =>
      match setup aModel a with
      | Threw e a' => Threw e (a' :: rest)
      | Returned a' =>
          match ForceSet_setup aModel rest with
          | Threw e rest' => Threw e (a' :: rest')
          | Returned rest' => Returned (a' :: rest')
          end
      end
  end.

Section Create.

(** [Coordinate::isConstrained] is not among the sources: it is a
    parameter of the embedding. *)
Variable isConstrained : Coordinate -> SimTK.State -> bool.

(** The loop of [CreateForceSetOfCoordinateActuatorsForModel] over the
    coordinates still to visit, [forces] being the set built so far. *)
Fixpoint appendCoordinateActuators
    (s : SimTK.State) (cs : list Coordinate) (aOptimalForce : Q)
    (aIncludeLockedAndConstrainedCoordinates : bool) (forces : list t)
  : outcome (list t) :=
  match cs with
  | [] => Returned forces
  | c :: rest =>
      if negb aIncludeLockedAndConstrainedCoordinates && isConstrained c s
      then appendCoordinateActuators s rest aOptimalForce
             aIncludeLockedAndConstrainedCoordinates forces
      else
        let actuator := new EmptyString in
        let actuator := setCoordinate (Some c) actuator in
        let actuator :=
          setName (Coordinate_getName c ++ "_actuator")%string actuator in
        match setOptimalForce aOptimalForce actuator with
        | Threw e _ => Threw e forces
        | Returned actuator =>
            appendCoordinateActuators s rest aOptimalForce
              aIncludeLockedAndConstrainedCoordinates (forces ++ [actuator])
        end
  end.

(** [CreateForceSetOfCoordinateActuatorsForModel].  [forceSet] is the
    content of the model's force set on entry; the result is its content
    on return. *)
Definition CreateForceSetOfCoordinateActuatorsForModel
    (s : SimTK.State) (aModel : Model) (forceSet : list t)
    (aOptimalForce : Q) (aIncludeLockedAndConstrainedCoordinates : bool)
  : outcome (list t) :=
  let forces := firstn 0 forceSet in
  match appendCoordinateActuators s (updCoordinateSet aModel) aOptimalForce
          aIncludeLockedAndConstrainedCoordinates forces with
  | Threw e forces => Threw e forces
  | Returned forces => ForceSet_setup aModel forces
  end.

End Create.

End CoordinateActuator.

(* ================================================================== *)
(** * Finite sums of scalars                                            *)
(* ================================================================== *)

(** [sum n f] is [f 0 + f 1 + ... + f (n-1)]. *)
Fixpoint sum (n : nat) (f : nat -> Q) : Q :=
  match n with
  | O => 0
  | S m => sum m f + f m
  end.

Definition sqr (x : Q) : Q := x * x.

Definition nonneg (x : Q) : Prop := 0 <= x.

(* ================================================================== *)
(** * Prescribed Controller                                             *)
(* ================================================================== *)

Module PrescribedController.

(** The Function Evaluator is a capability the controller consumes
    (section 2): a control function is what it evaluates to at a time. *)
Record Function : Type := mkFunction {
  calcValue : Q -> Q
}.

(** Modelled from the spec: the body of [PrescribedController]
    ([PrescribedController.cpp]; only the header is among the sources).
    The controller holds its actuators in attachment order and at most
    one control function per ordinal index (section 4.3). *)
Record t : Type := mk {
  actuators : list string;
  ControlFunctions : nat -> option Function
}.

Definition new : t := mk [] (fun _ => None).

Definition addActuator (actuatorName : string) (this : t) : t :=
  mk (actuators this ++ [actuatorName]) (ControlFunctions this).

(** Modelled from the spec: [prescribeControlForActuator(index, f)];
    "assigning a function for an actuator takes ownership of that
    function, replacing and discarding any previous one for the same
    actuator" (section 4.3). *)
Definition prescribeControlForActuator
    (index : nat) (prescribedFunction : Function) (this : t) : t :=
  mk (actuators this)
     (fun i => if Nat.eqb i index then Some prescribedFunction
               else ControlFunctions this i).

(** The control value of the actuator of ordinal [i] at time [time]. *)
Definition controlAt (this : t) (time : Q) (i : nat) : Q :=
  match ControlFunctions this i with
  | Some f => calcValue f time
  | None => 0
  end.

(** The loop over the managed set, from the actuator of ordinal [i] on. *)
Fixpoint computeControlsFrom
    (this : t) (time : Q) (i : nat) (acts : list string) : SimTK.Vector :=
  match acts with
  | [] => []
  | _ :: rest =>
      controlAt this time i :: computeControlsFrom this time (S i) rest
  end.

(** Modelled from the spec: [computeControls(state)] "evaluates each
    actuator's function at the current time, in attachment order; an
    actuator lacking an assigned function yields control value 0"
    (section 4.3). *)
Definition computeControls (this : t) (s : SimTK.State) : SimTK.Vector :=
  computeControlsFrom this (SimTK.getTime s) 0 (actuators this).

End PrescribedController.

(* ================================================================== *)
(** * Synergy Controller                                                *)
(* ================================================================== *)

Module SynergyController.

(** Modelled from the spec: the [SynergyController] class (its sources
    are not at hand; the example program only constructs it).  It holds
    the controlled actuators in attachment order and one synergy vector
    per channel (section 4.4). *)
Record t : Type := mk {
  actuators : list string;
  synergy_vectors : list SimTK.Vector
}.

Definition new : t := mk [] [].

Definition addActuator (actuatorName : string) (this : t) : t :=
  mk (actuators this ++ [actuatorName]) (synergy_vectors this).

Definition getNumActuators (this : t) : nat := List.length (actuators this).

Definition getNumSynergies (this : t) : nat :=
  List.length (synergy_vectors this).

(** Modelled from the spec: "adding a synergy vector whose length
    mismatches the number of controlled actuators fails with
    DimensionMismatchError" (section 4.4). *)
Definition addSynergyVector (v : SimTK.Vector) (this : t) : outcome t :=
  if Nat.eqb (List.length v) (getNumActuators this)
  then Returned (mk (actuators this) (synergy_vectors this ++ [v]))
  else Threw (mkException "DimensionMismatchError") this.

(** Weight of actuator [j] in the synergy vector of channel [k]. *)
Definition weight (this : t) (k j : nat) : Q :=
  nth j (nth k (synergy_vectors this) []) 0.

(** Modelled from the spec: "for controlled actuator j, control value =
    sum over channels k of excitation_k(state) * synergyVector_k[j]"
    (section 4.4).  [excitation k s] is the value of the externally
    supplied input of channel [k] at state [s]. *)
Definition controlValue
    (this : t) (excitation : nat -> SimTK.State -> Q)
    (s : SimTK.State) (j : nat) : Q :=
  sum (getNumSynergies this)
      (fun k => excitation k s * weight this k j).

Definition computeControls
    (this : t) (excitation : nat -> SimTK.State -> Q)
    (s : SimTK.State) : SimTK.Vector :=
  map (controlValue this excitation s) (seq 0 (getNumActuators this)).

End SynergyController.

(* ================================================================== *)
(** * Non-negative matrix factorizer                                    *)
(* ================================================================== *)

Module Matrix.

(** A dense matrix is the list of its rows. *)
Definition t : Type := list (list Q).

Definition nrow (A : t) : nat := List.length A.

Definition ncol (A : t) : nat :=
  match A with
  | [] => O
  | r :: _ => List.length r
  end.

(** [A(i, j)]; [0] outside the matrix. *)
Definition elt (A : t) (i j : nat) : Q := nth j (nth i A []) 0.

(** The [r] by [c] matrix whose entry [(i, j)] is [f i j]. *)
Definition build (r c : nat) (f : nat -> nat -> Q) : t :=
  map (fun i => map (f i) (seq 0 c)) (seq 0 r).

(** Every entry is [>= 0]. *)
Definition nonnegative (A : t) : Prop := Forall (Forall nonneg) A.

(** The sum of the entries of the leading [r] by [c] block. *)
Definition sumEntries (r c : nat) (A : t) : Q :=
  sum r (fun i => sum c (fun j => elt A i j)).

End Matrix.

Module Factorizer.

Import Matrix.

(** What the factorizer hands back: the two factors and whether the
    tolerance was met (when it was not, the factors are returned all the
    same and the condition is only reported). *)
Record Factors : Type := mkFactors {
  W : Matrix.t;
  H : Matrix.t;
  converged : bool
}.

Section Updates.

(** Dimensions: [V] is [T] by [M], [W] is [T] by [K], [H] is [K] by
    [M].  [floor] is the "small positive floor added to denominators". *)
Variables (T M K : nat) (floor : Q).

(** Entry [(i, mu)] of the reconstruction [W H]. *)
Definition WH (Wm Hm : Matrix.t) (i mu : nat) : Q :=
  sum K (fun a => elt Wm i a * elt Hm a mu).

(** Entry [(a, mu)] of [W^t V] and of [W^t (W H)]. *)
Definition WtV (V Wm : Matrix.t) (a mu : nat) : Q :=
  sum T (fun i => elt Wm i a * elt V i mu).

Definition WtWH (Wm Hm : Matrix.t) (a mu : nat) : Q :=
  sum T (fun i => elt Wm i a * WH Wm Hm i mu).

(** Entry [(i, a)] of [V H^t] and of [(W H) H^t]. *)
Definition VHt (V Hm : Matrix.t) (i a : nat) : Q :=
  sum M (fun mu => elt V i mu * elt Hm a mu).

Definition WHHt (Wm Hm : Matrix.t) (i a : nat) : Q :=
  sum M (fun mu => WH Wm Hm i mu * elt Hm a mu).

(** Modelled from the spec: "each iteration rescales H by the
    elementwise ratio (W^t V) / (W^t W H) and W by (V H^t) / (W H H^t),
    with a small positive floor added to denominators" (section 4.5).
    The factorizer's sources are not at hand. *)
Definition updateH (V Wm Hm : Matrix.t) : Matrix.t :=
  build K M
    (fun a mu => elt Hm a mu * (WtV V Wm a mu / (WtWH Wm Hm a mu + floor))).

Definition updateW (V Wm Hm : Matrix.t) : Matrix.t :=
  build T K
    (fun i a => elt Wm i a * (VHt V Hm i a / (WHHt Wm Hm i a + floor))).

(** The squared reconstruction error, the sum of the squares of the
    entries of [V - W H]. *)
Definition reconstructionError (V Wm Hm : Matrix.t) : Q :=
  sum T (fun i => sum M (fun mu => sqr (elt V i mu - WH Wm Hm i mu))).

(** One multiplicative-update iteration: [H] first, then [W] against
    the new [H]. *)
Definition iteration (V : Matrix.t) (WHm : Matrix.t * Matrix.t)
  : Matrix.t * Matrix.t :=
  let Hm' := updateH V (fst WHm) (snd WHm) in
  let Wm' := updateW V (fst WHm) Hm' in
  (Wm', Hm').

(** The factors after [n] iterations, without the tolerance test. *)
Fixpoint iterations (n : nat) (V : Matrix.t) (WHm : Matrix.t * Matrix.t)
  : Matrix.t * Matrix.t :=
  match n with
  | O => WHm
  | S m => iteration V (iterations m V WHm)
  end.

(** Modelled from the spec: "stop when the relative decrease in
    reconstruction error falls below the tolerance, or when N
    iterations are reached"; reaching the cap returns the factors found
    so far, flagged as not converged (section 4.5). *)
Fixpoint iterateUntil
    (maxIterations : nat) (tolerance : Q) (V : Matrix.t)
    (WHm : Matrix.t * Matrix.t) (prevError : Q) : Factors :=
  match maxIterations with
  | O => mkFactors (fst WHm) (snd WHm) false
  | S n =>
      let WHm' := iteration V WHm in
      let error := reconstructionError V (fst WHm') (snd WHm') in
      if Qlt_le_dec ((prevError - error) / prevError) tolerance
      then mkFactors (fst WHm') (snd WHm') true
      else iterateUntil n tolerance V WHm' error
  end.

End Updates.

(** Modelled from the spec:
    [factorizeMatrixNonNegative(V, K, N, tolerance, W, H)] (section 4.5).
    The initial factors are "seeded with non-negative values", the seed
    policy being left open: the seeds [W0], [H0] and the floor are
    arguments here. *)
Definition factorizeMatrixNonNegative
    (floor : Q) (W0 H0 : Matrix.t)
    (V : Matrix.t) (numFactors maxIterations : nat) (tolerance : Q)
  : Factors :=
  let T := nrow V in
  let M := ncol V in
  iterateUntil T M numFactors floor maxIterations tolerance V (W0, H0)
    (reconstructionError T M numFactors V W0 H0).

End Factorizer.

(* ================================================================== *)
(** * exampleMocoInverse.cpp: the synergy controllers of one leg        *)
(* ================================================================== *)

Module ExampleMocoInverse.

Import Matrix Factorizer.

(** What the example reads of a muscle. *)
Record Muscle : Type := mkMuscle {
  Muscle_getName : string;
  getAbsolutePathString : string
}.

(** [a - b] on [size_t], 64 bits wide: the difference wraps around. *)
Definition size_t_sub (a b : N) : N := ((a + 2 ^ 64 - b) mod 2 ^ 64)%N.

(** The C++ exception [std::out_of_range], recorded by its name. *)
Definition out_of_range : Exception := mkException "std::out_of_range".

(** [std::string::compare(pos, len, str)]: [None] stands for the
    [std::out_of_range] thrown when [pos > size()]; otherwise the at most
    [len] characters from [pos] on are compared with [str], the sign of
    the result being the comparison. *)
Definition string_compare
    (this : string) (pos : N) (len : nat) (str : string)
  : option comparison :=
  if (N.of_nat (String.length this) <? pos)%N
  then None
  else Some (String.compare (substring (N.to_nat pos) len this) str).

(** [endsWith suffix s]: some tail of [s] is [suffix]. *)
Fixpoint endsWith (suffix s : string) : bool :=
  String.eqb s suffix
  || match s with
     | EmptyString => false
     | String _ s' => endsWith suffix s'
     end.

(** The loop of [solveMocoInverseWithSynergies] over the muscles of the
    model, which sorts their absolute paths into the control names of the
    left and of the right leg by the last two characters of the name. *)
Fixpoint collectControlNames
    (muscles : list Muscle) (leftControlNames rightControlNames : list string)
  : outcome (list string * list string) :=
  match muscles with
  | [] => Returned (leftControlNames, rightControlNames)
  | muscle :: rest =>
      let name := Muscle_getName muscle in
      let pos := size_t_sub (N.of_nat (String.length name)) 2 in
      match string_compare name pos 2 "_l" with
      | None => Threw out_of_range (leftControlNames, rightControlNames)
      | Some Eq =>
          collectControlNames rest
            (leftControlNames ++ [getAbsolutePathString muscle])
            rightControlNames
      | Some _ =>
          match string_compare name pos 2 "_r" with
          | None => Threw out_of_range (leftControlNames, rightControlNames)
          | Some Eq =>
              collectControlNames rest leftControlNames
                (rightControlNames ++ [getAbsolutePathString muscle])
          | Some _ =>
              collectControlNames rest leftControlNames rightControlNames
          end
      end
  end.

(** [for (const auto& name : controlNames) controller->addActuator(...)]. *)
Definition addActuators
    (controlNames : list string) (controller : SynergyController.t)
  : SynergyController.t :=
  fold_left (fun c name => SynergyController.addActuator name c)
    controlNames controller.

(** [for (int i = 0; i < numSynergies; ++i)
       controller->addSynergyVector(H.row(i).transpose().getAsVector())],
    from row [i] on with [remaining] rows to go. *)
Fixpoint addSynergyVectors
    (Hm : Matrix.t) (i remaining : nat) (controller : SynergyController.t)
  : outcome SynergyController.t :=
  match remaining with
  | O => Returned controller
  | S remaining' =>
      match SynergyController.addSynergyVector (nth i Hm []) controller with
      | Threw e controller' => Threw e controller'
      | Returned controller' =>
          addSynergyVectors Hm (S i) remaining' controller'
      end
  end.

(** The factorization of the controls of one leg followed by the
    construction of its synergy controller, as
    [solveMocoInverseWithSynergies] does for each leg: 1000 iterations at
    most, tolerance [1e-6].  The floor and the seeds of the factorizer are
    arguments, as they are of the factorizer. *)
Definition synergyControllerOfLeg
    (floor : Q) (W0 H0 : Matrix.t)
    (controls : Matrix.t) (controlNames : list string) (numSynergies : nat)
  : outcome SynergyController.t :=
  let factors :=
    factorizeMatrixNonNegative floor W0 H0 controls numSynergies 1000 1e-6 in
  let controller := SynergyController.new in
  let controller := addActuators controlNames controller in
  addSynergyVectors (H factors) 0 numSynergies controller.

End ExampleMocoInverse.

(* ================================================================== *)
(** * One multiplicative rescaling of one vector                        *)
(* ================================================================== *)

(** The update of [H] acts on each column of [H] separately, the update of
    [W] on each row of [W]; both are the same rescaling of a vector [h]
    of [m] unknowns against [n] equations [B h ~ v], written once here. *)
Module Rescaling.

Section Rescaling.

Variables (n m : nat) (B : nat -> nat -> Q) (v : nat -> Q) (floor : Q).

(** Entry [i] of [B h]. *)
Definition predicted (h : nat -> Q) (i : nat) : Q :=
  sum m (fun a => B i a * h a).

(** The squared error of [h]: the sum of the squares of [v - B h]. *)
Definition cost (h : nat -> Q) : Q :=
  sum n (fun i => sqr (v i - predicted h i)).

(** Entry [a] of [B^t v] and of [B^t (B h)] plus the floor. *)
Definition numerator (a : nat) : Q := sum n (fun i => B i a * v i).

Definition denominator (h : nat -> Q) (a : nat) : Q :=
  sum n (fun i => B i a * predicted h i) + floor.

(** The rescaled vector. *)
Definition rescale (h : nat -> Q) (a : nat) : Q :=
  h a * (numerator a / denominator h a).

End Rescaling.

End Rescaling.

(* ================================================================== *)
(** * Sample data for running the embedding                             *)
(* ================================================================== *)

Module Sample.

Import CoordinateActuator.

(** One possible [applyGeneralizedForce]: the force is added into the
    mobility-force entry of the coordinate's degree of freedom. *)
Fixpoint addAt (i : nat) (f : Q) (v : SimTK.Vector) : SimTK.Vector :=
  match v, i with
  | [], _ => []
  | x :: r, O => (x + f) :: r
  | x :: r, S k => x :: addAt k f r
  end.

Definition addInMobilityForce
    (s : SimTK.State) (c : Coordinate) (f : Q) (v : SimTK.Vector)
  : SimTK.Vector :=
  addAt (mobilityIndex c) f v.

(** A three-coordinate leg. *)
Definition leg : Model :=
  mkModel [mkCoordinate "hip" 0; mkCoordinate "knee" 1;
           mkCoordinate "ankle" 2].

Definition named (n coord : string) : t := setName n (new coord).

(** Attached actuators: the first two resolve, the third names a
    coordinate the model does not have and keeps [_coord] null. *)
Definition hipActuator : t := receiver (setup leg (named "hip_act" "hip")).
Definition kneeActuator : t :=
  receiver (setup leg (named "knee_act" "knee")).
Definition toeActuator : t := receiver (setup leg (named "toe_act" "toe")).

(** A state in which every actuator has control [c], no force cached yet
    and no override. *)
Definition uniformState (time c : Q) : SimTK.State :=
  SimTK.mkState time (fun _ => SimTK.mkActuatorEntry c 0 false 0).

(** The same with every actuator overridden to [o]. *)
Definition overriddenState (time c o : Q) : SimTK.State :=
  SimTK.mkState time (fun _ => SimTK.mkActuatorEntry c 0 true o).

Definition freshEnv (s : SimTK.State) : Env :=
  mkEnv s [] [0; 0; 0] [].

(** The knee actuator after [setOptimalForce(-2)], and the state left by
    one force computation on it with control [-2]. *)
Definition reversedKnee : t := receiver (setOptimalForce (-2) kneeActuator).

Definition reversedKneeState : SimTK.State :=
  state (computeForce addInMobilityForce reversedKnee
           (freshEnv (uniformState 0 (-2)))).

(** A prescribed controller over three actuators of which the middle one
    has no function: a constant [0.25] for the first, [2 t] for the last. *)
Definition partlyPrescribed : PrescribedController.t :=
  PrescribedController.prescribeControlForActuator 2
    (PrescribedController.mkFunction (fun time => 2 * time))
    (PrescribedController.prescribeControlForActuator 0
       (PrescribedController.mkFunction (fun _ => 0.25))
       (PrescribedController.addActuator "c"
          (PrescribedController.addActuator "b"
             (PrescribedController.addActuator "a"
                PrescribedController.new)))).

(** The synergy controller of section 8: two actuators, one channel with
    the vector [[0.3, 0.7]]. *)
Definition oneChannel : SynergyController.t :=
  receiver
    (SynergyController.addSynergyVector [0.3; 0.7]
       (SynergyController.addActuator "b"
          (SynergyController.addActuator "a" SynergyController.new))).

(** A two by two matrix to factorize with one synergy. *)
Definition excitations : Matrix.t := [[1; 2]; [3; 4]].
Definition seedW : Matrix.t := [[1]; [1]].
Definition seedH : Matrix.t := [[1; 1]].
Definition smallFloor : Q := 1 # 1000000.

(** The one by one matrix [[1]], already factorized exactly by the seeds
    [[1]] and [[1]]. *)
Definition oneByOne : Matrix.t := [[1]].

(** A second model, which has no knee. *)
Definition arm : Model :=
  mkModel [mkCoordinate "shoulder" 0; mkCoordinate "elbow" 1].

(** The knee actuator of the leg after an attempt to set it up in the
    arm. *)
Definition movedKnee : t := receiver (setup arm kneeActuator).

(** Which coordinates of the sample models are constrained: the knee. *)
Definition kneeLocked (c : Coordinate) (s : SimTK.State) : bool :=
  String.eqb (Coordinate_getName c) "knee".

(** Five muscles, two of each leg and one of neither. *)
Definition muscles : list ExampleMocoInverse.Muscle :=
  [ExampleMocoInverse.mkMuscle "soleus_r" "/forceset/soleus_r";
   ExampleMocoInverse.mkMuscle "soleus_l" "/forceset/soleus_l";
   ExampleMocoInverse.mkMuscle "psoas" "/forceset/psoas";
   ExampleMocoInverse.mkMuscle "tibant_l" "/forceset/tibant_l";
   ExampleMocoInverse.mkMuscle "tibant_r" "/forceset/tibant_r"].

End Sample.

(* ================================================================== *)
(** * Finite sums: algebra and order                                    *)
(* ================================================================== *)

Section Sums.

Local Open Scope Q_scope.

Lemma sum_ext (n : nat) (f g : nat -> Q) :
  (forall k, (k < n)%nat -> f k == g k) -> sum n f == sum n g.
Proof.
  induction n as [| n IH]; intros H; simpl.
  - reflexivity.
  - rewrite IH by (intros k Hk; apply H; lia).
    rewrite (H n) by lia. reflexivity.
Qed.

Lemma sum_le (n : nat) (f g : nat -> Q) :
  (forall k, (k < n)%nat -> f k <= g k) -> sum n f <= sum n g.
Proof.
  induction n as [| n IH]; intros H; simpl.
  - apply Qle_refl.
  - apply Qplus_le_compat.
    + apply IH. intros k Hk. apply H. lia.
    + apply H. lia.
Qed.

Lemma sum_zero (n : nat) : sum n (fun _ => 0) == 0.
Proof.
  induction n as [| n IH]; simpl.
  - reflexivity.
  - rewrite IH. ring.
Qed.

Lemma sum_nonneg (n : nat) (f : nat -> Q) :
  (forall k, (k < n)%nat -> 0 <= f k) -> 0 <= sum n f.
Proof.
  intros H. rewrite <- (sum_zero n). now apply sum_le.
Qed.

Lemma sum_plus (n : nat) (f g : nat -> Q) :
  sum n (fun k => f k + g k) == sum n f + sum n g.
Proof.
  induction n as [| n IH]; simpl.
  - ring.
  - rewrite IH. ring.
Qed.

Lemma sum_scal (n : nat) (c : Q) (f : nat -> Q) :
  sum n (fun k => c * f k) == c * sum n f.
Proof.
  induction n as [| n IH]; simpl.
  - ring.
  - rewrite IH. ring.
Qed.

Lemma sum_swap (n m : nat) (f : nat -> nat -> Q) :
  sum n (fun i => sum m (fun j => f i j))
  == sum m (fun j => sum n (fun i => f i j)).
Proof.
  induction n as [| n IH]; simpl.
  - now rewrite sum_zero.
  - rewrite IH, <- sum_plus. reflexivity.
Qed.

End Sums.

(* ================================================================== *)
(** * Properties of the coordinate actuator                             *)
(* ================================================================== *)

Section ActuatorFacts.

Import CoordinateActuator.

Local Open Scope Q_scope.

(** ** The state cache *)

Lemma entry_setForce_same (a : t) (s : SimTK.State) (f : Q) :
  entry a (setForce a s f)
  = SimTK.mkActuatorEntry (SimTK.control (entry a s)) f
      (SimTK.overridden (entry a s)) (SimTK.overrideForce (entry a s)).
Proof.
  unfold entry, setForce; simpl.
  now rewrite String.eqb_refl.
Qed.

Lemma entry_setForce_other (a b : t) (s : SimTK.State) (f : Q) :
  getName b <> getName a ->
  entry b (setForce a s f) = entry b s.
Proof.
  intros Hne. unfold entry, setForce; simpl.
  destruct (String.eqb_spec (getName b) (getName a)) as [E | _].
  - contradiction.
  - reflexivity.
Qed.

Lemma getForce_setForce (a : t) (s : SimTK.State) (f : Q) :
  getForce a (setForce a s f) = f.
Proof. unfold getForce. now rewrite entry_setForce_same. Qed.

(** [setForce], whoever calls it, leaves the inputs of every actuator's
    evaluation (control, override flag, override value) as they were. *)
Lemma settledForce_setForce (a b : t) (s : SimTK.State) (f : Q) :
  settledForce b (setForce a s f) = settledForce b s.
Proof.
  unfold settledForce, isForceOverriden, computeOverrideForce,
    computeActuation, getControl.
  destruct (String.eqb_spec (getName b) (getName a)) as [E | Hne].
  - assert (Hb : entry b (setForce a s f)
                 = SimTK.mkActuatorEntry (SimTK.control (entry b s)) f
                     (SimTK.overridden (entry b s))
                     (SimTK.overrideForce (entry b s))).
    { unfold entry, setForce; simpl. rewrite E, String.eqb_refl.
      reflexivity. }
    rewrite Hb; reflexivity.
  - now rewrite entry_setForce_other.
Qed.

Variable applyGeneralizedForce :
  SimTK.State -> Coordinate -> Q -> SimTK.Vector -> SimTK.Vector.

(** ** [computeForce], branch by branch *)

Lemma computeForce_detached (a : t) (env : Env) :
  _model a = None -> computeForce applyGeneralizedForce a env = env.
Proof. intros H. unfold computeForce. now rewrite H. Qed.

Lemma computeForce_state (a : t) (env : Env) (m : Model) :
  _model a = Some m ->
  state (computeForce applyGeneralizedForce a env)
  = setForce a (state env) (settledForce a (state env)).
Proof.
  intros H. unfold computeForce, settledForce.
  rewrite H.
  destruct (isCoordinateValid a); [destruct (_coord a) |]; reflexivity.
Qed.

Lemma computeForce_bodyForces (a : t) (env : Env) :
  bodyForces (computeForce applyGeneralizedForce a env) = bodyForces env.
Proof.
  unfold computeForce.
  destruct (_model a); [| reflexivity].
  destruct (isCoordinateValid a); [destruct (_coord a) |]; reflexivity.
Qed.

Lemma computeForce_invalid (a : t) (env : Env) (m : Model) :
  _model a = Some m ->
  isCoordinateValid a = false ->
  computeForce applyGeneralizedForce a env
  = mkEnv (setForce a (state env) (settledForce a (state env)))
      (bodyForces env) (mobilityForces env)
      (cout env ++ [invalidCoordinateReport]).
Proof.
  intros Hm Hv. unfold computeForce, settledForce.
  rewrite Hm, Hv. reflexivity.
Qed.

Lemma computeForce_valid (a : t) (env : Env) (m : Model) (c : Coordinate) :
  _model a = Some m ->
  _coord a = Some c ->
  computeForce applyGeneralizedForce a env
  = let s' := setForce a (state env) (settledForce a (state env)) in
    mkEnv s' (bodyForces env)
      (applyGeneralizedForce s' c (settledForce a (state env))
         (mobilityForces env))
      (cout env).
Proof.
  intros Hm Hc. unfold computeForce, settledForce.
  unfold isCoordinateValid. rewrite Hm, Hc. cbv zeta.
  now rewrite getForce_setForce.
Qed.

(** ** Batches *)

Lemma computeForces_cons (a : t) (rest : list t) (env : Env) :
  computeForces applyGeneralizedForce (a :: rest) env
  = computeForces applyGeneralizedForce rest
      (computeForce applyGeneralizedForce a env).
Proof. reflexivity. Qed.

(** One evaluation leaves the inputs of every evaluation untouched. *)
Lemma settledForce_computeForce (a b : t) (env : Env) :
  settledForce b (state (computeForce applyGeneralizedForce a env))
  = settledForce b (state env).
Proof.
  destruct (_model a) as [m |] eqn:Hm.
  - rewrite (computeForce_state a env m Hm). apply settledForce_setForce.
  - now rewrite computeForce_detached.
Qed.

(** One evaluation leaves the force cached for differently named
    actuators untouched. *)
Lemma getForce_computeForce_other (a b : t) (env : Env) :
  getName b <> getName a ->
  getForce b (state (computeForce applyGeneralizedForce a env))
  = getForce b (state env).
Proof.
  intros Hne. destruct (_model a) as [m |] eqn:Hm.
  - rewrite (computeForce_state a env m Hm). unfold getForce.
    now rewrite entry_setForce_other.
  - now rewrite computeForce_detached.
Qed.

Lemma getForce_computeForces_other (batch : list t) (b : t) (env : Env) :
  ~ In (getName b) (map getName batch) ->
  getForce b (state (computeForces applyGeneralizedForce batch env))
  = getForce b (state env).
Proof.
  revert env. induction batch as [| a rest IH]; intros env Hnin.
  - reflexivity.
  - simpl in Hnin. rewrite computeForces_cons.
    rewrite IH by tauto.
    apply getForce_computeForce_other. intros E. apply Hnin. now left.
Qed.

(** In a batch of distinctly named actuators every attached member ends
    with its own force cached, whatever the other members are. *)
Lemma computeForces_caches_each (batch : list t) (b : t) (env : Env) :
  NoDup (map getName batch) ->
  In b batch ->
  _model b <> None ->
  getForce b (state (computeForces applyGeneralizedForce batch env))
  = settledForce b (state env).
Proof.
  revert env. induction batch as [| a rest IH]; intros env Hnd Hin Hm.
  - contradiction.
  - rewrite computeForces_cons.
    simpl in Hnd. inversion Hnd as [| x l Hnotin Hnd' ]; subst.
    destruct Hin as [-> | Hin].
    + rewrite getForce_computeForces_other by assumption.
      destruct (_model b) as [m |] eqn:E; [| congruence].
      rewrite (computeForce_state b env m E). apply getForce_setForce.
    + rewrite IH by assumption. apply settledForce_computeForce.
Qed.

End ActuatorFacts.

Section ActuatorClaims.

Import CoordinateActuator.

Local Open Scope Q_scope.

(** C1.  For an actuator attached to a model context, [computeActuation]
    returns [control(state) * optimalForce]; for an actuator whose model
    reference is null it returns [0]. *)
Theorem computeActuation_control_times_optimalForce
    (a : t) (s : SimTK.State) :
  (forall m, _model a = Some m ->
     computeActuation a s = getControl a s * optimal_force a)
  /\ (_model a = None -> computeActuation a s = 0).
Proof.
  unfold computeActuation. split.
  - intros m ->. reflexivity.
  - intros ->. reflexivity.
Qed.

(** The scenario of section 8: [optimalForce = 1.0], [control = 0.5] give
    an actuation of [0.5]; before attachment the actuation is [0]. *)
Lemma computeActuation_control_times_optimalForce_witness :
  computeActuation Sample.kneeActuator (Sample.uniformState 0 0.5) == 0.5
  /\ computeActuation (new "knee") (Sample.uniformState 0 0.5) = 0.
Proof.
  split.
  - destruct (computeActuation_control_times_optimalForce
                Sample.kneeActuator (Sample.uniformState 0 0.5))
      as [Hattached _].
    rewrite (Hattached Sample.leg eq_refl). vm_compute. reflexivity.
  - destruct (computeActuation_control_times_optimalForce
                (new "knee") (Sample.uniformState 0 0.5))
      as [_ Hdetached].
    apply Hdetached. reflexivity.
Defined.

(** C2, as stated, fails: [setOptimalForce(-1)] and [setOptimalForce(0)]
    return normally and store the value. *)
Lemma setOptimalForce_accepts_nonpositive :
  (-1 <= 0
   /\ fails (setOptimalForce (-1) (new "knee")) = false
   /\ getOptimalForce (receiver (setOptimalForce (-1) (new "knee"))) = -1)
  /\ (0 <= 0
      /\ fails (setOptimalForce 0 (new "knee")) = false
      /\ getOptimalForce (receiver (setOptimalForce 0 (new "knee"))) = 0).
Proof.
  repeat split; try reflexivity; discriminate.
Qed.

(** C2, amended.  For every value [v], positive or not, [setOptimalForce]
    returns normally, sets the optimal-force attribute to [v] and leaves
    the rest of the actuator as it was. *)
Theorem setOptimalForce_always_succeeds (v : Q) (a : t) :
  setOptimalForce v a = Returned (setPropertyValue_optimal_force v a)
  /\ fails (setOptimalForce v a) = false
  /\ getOptimalForce (receiver (setOptimalForce v a)) = v
  /\ getName (receiver (setOptimalForce v a)) = getName a
  /\ _model (receiver (setOptimalForce v a)) = _model a
  /\ _coord (receiver (setOptimalForce v a)) = _coord a
  /\ coordinate (receiver (setOptimalForce v a)) = coordinate a.
Proof. repeat split. Qed.

(** C3.  For an actuator attached to a model, [computeForce] settles on
    the override value when the force is overridden and on
    [computeActuation] otherwise and caches that value as the force of
    the evaluation.  When the coordinate is invalid the mobility forces
    are left as they were and one line is written instead; nothing is
    thrown, and in any batch of distinctly named actuators that contains
    the invalid one every attached actuator still ends with its own
    force cached. *)
Theorem computeForce_caches_and_isolates_invalid
    (applyGeneralizedForce :
       SimTK.State -> Coordinate -> Q -> SimTK.Vector -> SimTK.Vector)
    (a : t) (m : Model) (env : Env) :
  _model a = Some m ->
  getForce a (state (computeForce applyGeneralizedForce a env))
  = (if isForceOverriden a (state env)
     then computeOverrideForce a (state env)
     else computeActuation a (state env))
  /\ state (computeForce applyGeneralizedForce a env)
     = setForce a (state env) (settledForce a (state env))
  /\ bodyForces (computeForce applyGeneralizedForce a env) = bodyForces env
  /\ (forall c, _coord a = Some c ->
        mobilityForces (computeForce applyGeneralizedForce a env)
        = applyGeneralizedForce
            (state (computeForce applyGeneralizedForce a env)) c
            (settledForce a (state env)) (mobilityForces env)
        /\ cout (computeForce applyGeneralizedForce a env) = cout env)
  /\ (isCoordinateValid a = false ->
        mobilityForces (computeForce applyGeneralizedForce a env)
        = mobilityForces env
        /\ cout (computeForce applyGeneralizedForce a env)
           = cout env ++ [invalidCoordinateReport]
        /\ forall (pre post : list t) (env0 : Env) (b : t),
             NoDup (map getName (pre ++ a :: post)) ->
             In b (pre ++ a :: post) ->
             _model b <> None ->
             getForce b
               (state (computeForces applyGeneralizedForce
                         (pre ++ a :: post) env0))
             = settledForce b (state env0)).
Proof.
  intros Hm.
  assert (Hs := computeForce_state applyGeneralizedForce a env m Hm).
  split; [| split; [| split; [| split]]].
  - rewrite Hs. apply getForce_setForce.
  - exact Hs.
  - apply computeForce_bodyForces.
  - intros c Hc.
    rewrite (computeForce_valid applyGeneralizedForce a env m c Hm Hc).
    split; reflexivity.
  - intros Hv.
    rewrite (computeForce_invalid applyGeneralizedForce a env m Hm Hv).
    split; [reflexivity | split; [reflexivity |]].
    intros pre post env0 b Hnd Hin Hb.
    now apply computeForces_caches_each.
Qed.

(** A batch of three attached actuators whose middle one has no valid
    coordinate: the invalid one applies nothing and reports, and the last
    one still gets its force, [0.5 * 1], cached.  An actuator overridden
    to [7] caches [7]. *)
Lemma computeForce_caches_and_isolates_invalid_witness :
  mobilityForces
    (computeForce Sample.addInMobilityForce Sample.toeActuator
       (Sample.freshEnv (Sample.uniformState 0 0.5)))
  = [0; 0; 0]
  /\ cout
       (computeForce Sample.addInMobilityForce Sample.toeActuator
          (Sample.freshEnv (Sample.uniformState 0 0.5)))
     = [invalidCoordinateReport]
  /\ getForce Sample.kneeActuator
       (state
          (computeForces Sample.addInMobilityForce
             [Sample.hipActuator; Sample.toeActuator; Sample.kneeActuator]
             (Sample.freshEnv (Sample.uniformState 0 0.5))))
     == 0.5
  /\ getForce Sample.kneeActuator
       (state
          (computeForce Sample.addInMobilityForce Sample.kneeActuator
             (Sample.freshEnv (Sample.overriddenState 0 0.5 7))))
     = 7.
Proof.
  destruct (computeForce_caches_and_isolates_invalid
              Sample.addInMobilityForce Sample.toeActuator Sample.leg
              (Sample.freshEnv (Sample.uniformState 0 0.5)) eq_refl)
    as (_ & _ & _ & _ & Hinvalid).
  destruct (computeForce_caches_and_isolates_invalid
              Sample.addInMobilityForce Sample.kneeActuator Sample.leg
              (Sample.freshEnv (Sample.overriddenState 0 0.5 7)) eq_refl)
    as (Hoverride & _).
  destruct (Hinvalid eq_refl) as (Hmob & Hcout & Hbatch).
  split; [exact Hmob | split; [exact Hcout | split; [| exact Hoverride]]].
  assert (Hknee :
            getForce Sample.kneeActuator
              (state
                 (computeForces Sample.addInMobilityForce
                    ([Sample.hipActuator]
                       ++ Sample.toeActuator :: [Sample.kneeActuator])
                    (Sample.freshEnv (Sample.uniformState 0 0.5))))
            = settledForce Sample.kneeActuator
                (state (Sample.freshEnv (Sample.uniformState 0 0.5)))).
  { apply Hbatch.
    - vm_compute. repeat constructor; simpl; intuition discriminate.
    - simpl. tauto.
    - discriminate. }
  cbn [app] in Hknee. rewrite Hknee. vm_compute. reflexivity.
Defined.

(** C4, as stated, fails when the optimal force is negative (which
    [setOptimalForce] accepts): with optimal force [-2] and cached force
    [4] the stress is [2], not [|4| / -2 = -2]. *)
Lemma getStress_negative_optimalForce :
  ~ optimal_force Sample.reversedKnee == 0
  /\ getForce Sample.reversedKnee Sample.reversedKneeState == 4
  /\ getStress Sample.reversedKnee Sample.reversedKneeState == 2
  /\ ~ getStress Sample.reversedKnee Sample.reversedKneeState
       == Qabs (getForce Sample.reversedKnee Sample.reversedKneeState)
          / optimal_force Sample.reversedKnee.
Proof.
  repeat split; vm_compute; congruence.
Qed.

(** C4, amended.  [getStress] returns [|force / optimalForce|]: for a
    nonzero optimal force that is [|force| / |optimalForce|], and for a
    positive optimal force it is [|force| / optimalForce]. *)
Theorem getStress_abs_force_over_optimalForce (a : t) (s : SimTK.State) :
  (~ optimal_force a == 0 ->
     getStress a s == Qabs (getForce a s) / Qabs (optimal_force a))
  /\ (0 < optimal_force a ->
        getStress a s == Qabs (getForce a s) / optimal_force a).
Proof.
  assert (Habs : getStress a s
                 == Qabs (getForce a s) / Qabs (optimal_force a)).
  { unfold getStress, Qdiv. now rewrite Qabs_Qmult, Qabs_Qinv. }
  split.
  - intros _. exact Habs.
  - intros Hpos. rewrite Habs.
    rewrite (Qabs_pos (optimal_force a)) by now apply Qlt_le_weak.
    reflexivity.
Qed.

Lemma getStress_abs_force_over_optimalForce_witness :
  getStress Sample.kneeActuator
    (setForce Sample.kneeActuator (Sample.uniformState 0 0.5) (-3))
  == 3.
Proof.
  destruct (getStress_abs_force_over_optimalForce Sample.kneeActuator
              (setForce Sample.kneeActuator (Sample.uniformState 0 0.5)
                 (-3)))
    as [_ Hpos].
  rewrite Hpos.
  - vm_compute. reflexivity.
  - vm_compute. reflexivity.
Defined.

(** ** Resolution *)

Lemma contains_get (cs : CoordinateSet) (aName : string) :
  Set_.contains cs aName = true ->
  exists c, Set_.get cs aName = Some c
            /\ In c cs /\ Coordinate_getName c = aName.
Proof.
  unfold Set_.contains, Set_.get. intros H.
  destruct (find (fun c => String.eqb (Coordinate_getName c) aName) cs)
    as [c |] eqn:Hfind.
  - exists c. split; [reflexivity |].
    apply find_some in Hfind. destruct Hfind as [Hin Heq].
    split; [exact Hin | now apply String.eqb_eq].
  - apply existsb_exists in H. destruct H as (c & Hin & Heq).
    pose proof (find_none _ _ Hfind c Hin) as Hno. simpl in Hno.
    congruence.
Qed.

(** C5.  [setup] attaches the actuator to the model and looks its
    coordinate name up: when the model has no coordinate of that name the
    call throws the unresolved-reference exception (leaving the coordinate
    reference as it was); when it has one the coordinate reference is
    bound to the matching coordinate of the model. *)
Theorem setup_resolves_coordinate_or_throws (aModel : Model) (a : t) :
  (Set_.contains (updCoordinateSet aModel) (coordinate a) = false ->
     setup aModel a
     = Threw
         (mkException
            (invalidCoordinateMessage (coordinate a) (getName a)))
         (Actuator_setup aModel a)
     /\ (exists e, thrown (setup aModel a) = Some e
                   /\ UnresolvedReferenceError e)
     /\ _coord (receiver (setup aModel a)) = _coord a)
  /\ (Set_.contains (updCoordinateSet aModel) (coordinate a) = true ->
        exists c,
          setup aModel a
          = Returned (set_coord (Some c) (Actuator_setup aModel a))
          /\ _coord (receiver (setup aModel a)) = Some c
          /\ _model (receiver (setup aModel a)) = Some aModel
          /\ In c (updCoordinateSet aModel)
          /\ Coordinate_getName c = coordinate a).
Proof.
  unfold setup. simpl. split.
  - intros ->. simpl. split; [reflexivity | split; [| reflexivity]].
    eexists. split; [reflexivity |].
    now exists (coordinate a), (getName a).
  - intros H. rewrite H. simpl.
    destruct (contains_get _ _ H) as (c & Hget & Hin & Hname).
    exists c. rewrite Hget. now repeat split.
Qed.

Lemma setup_resolves_coordinate_or_throws_witness :
  fails (setup Sample.leg (Sample.named "toe_act" "toe")) = true
  /\ exists c,
       _coord (receiver (setup Sample.leg (Sample.named "knee_act" "knee")))
       = Some c
       /\ In c (updCoordinateSet Sample.leg)
       /\ Coordinate_getName c = "knee"%string.
Proof.
  split.
  - destruct (setup_resolves_coordinate_or_throws Sample.leg
                (Sample.named "toe_act" "toe")) as [Hmissing _].
    destruct (Hmissing eq_refl) as (Hthrew & _).
    rewrite Hthrew. reflexivity.
  - destruct (setup_resolves_coordinate_or_throws Sample.leg
                (Sample.named "knee_act" "knee")) as [_ Hfound].
    destruct (Hfound eq_refl) as (c & _ & Hcoord & _ & Hin & Hname).
    exists c. split; [exact Hcoord | split; [exact Hin | exact Hname]].
Defined.

(** C10.  With a null model reference [computeForce] returns at once:
    the state (and with it the cached force), the body forces, the
    mobility forces and the output are exactly as before.  With a model
    but a null coordinate the settled force is still cached by [setForce]
    before the application is skipped. *)
Theorem computeForce_null_model_is_noop
    (applyGeneralizedForce :
       SimTK.State -> Coordinate -> Q -> SimTK.Vector -> SimTK.Vector)
    (a : t) (env : Env) :
  (_model a = None ->
     computeForce applyGeneralizedForce a env = env
     /\ getForce a (state (computeForce applyGeneralizedForce a env))
        = getForce a (state env)
     /\ bodyForces (computeForce applyGeneralizedForce a env)
        = bodyForces env
     /\ mobilityForces (computeForce applyGeneralizedForce a env)
        = mobilityForces env)
  /\ (forall m, _model a = Some m -> _coord a = None ->
        state (computeForce applyGeneralizedForce a env)
        = setForce a (state env) (settledForce a (state env))
        /\ getForce a (state (computeForce applyGeneralizedForce a env))
           = settledForce a (state env)
        /\ bodyForces (computeForce applyGeneralizedForce a env)
           = bodyForces env
        /\ mobilityForces (computeForce applyGeneralizedForce a env)
           = mobilityForces env).
Proof.
  split.
  - intros Hnull.
    rewrite (computeForce_detached applyGeneralizedForce a env Hnull).
    repeat split.
  - intros m Hm Hc.
    assert (Hv : isCoordinateValid a = false).
    { unfold isCoordinateValid. now rewrite Hm, Hc. }
    rewrite (computeForce_invalid applyGeneralizedForce a env m Hm Hv).
    simpl. repeat split. apply getForce_setForce.
Qed.

(** A detached actuator with control [0.5] leaves the cached force at
    [0]; the attached actuator with the unresolved coordinate caches
    [0.5 * 1]. *)
Lemma computeForce_null_model_is_noop_witness :
  getForce (new "knee")
    (state (computeForce Sample.addInMobilityForce (new "knee")
              (Sample.freshEnv (Sample.uniformState 0 0.5))))
  = 0
  /\ getForce Sample.toeActuator
       (state (computeForce Sample.addInMobilityForce Sample.toeActuator
                 (Sample.freshEnv (Sample.uniformState 0 0.5))))
     == 0.5.
Proof.
  destruct (computeForce_null_model_is_noop Sample.addInMobilityForce
              (new "knee") (Sample.freshEnv (Sample.uniformState 0 0.5)))
    as [Hnull _].
  destruct (computeForce_null_model_is_noop Sample.addInMobilityForce
              Sample.toeActuator
              (Sample.freshEnv (Sample.uniformState 0 0.5)))
    as [_ Hinvalid].
  split.
  - destruct (Hnull eq_refl) as (_ & Hforce & _). rewrite Hforce.
    reflexivity.
  - destruct (Hinvalid Sample.leg eq_refl eq_refl) as (_ & Hforce & _).
    rewrite Hforce. vm_compute. reflexivity.
Defined.

End ActuatorClaims.

(* ================================================================== *)
(** * Properties of the controllers                                     *)
(* ================================================================== *)

Section ListFacts.

Lemma nth_map_seq (f : nat -> Q) (n j : nat) :
  (j < n)%nat -> nth j (map f (seq 0 n)) 0%Q = f j.
Proof.
  intros Hj.
  rewrite (nth_indep _ 0%Q (f O)) by now rewrite length_map, length_seq.
  rewrite map_nth, seq_nth by assumption. reflexivity.
Qed.

End ListFacts.

Section PrescribedClaims.

Import PrescribedController.

Local Open Scope Q_scope.

Lemma computeControlsFrom_length
    (c : t) (time : Q) (acts : list string) (i : nat) :
  List.length (computeControlsFrom c time i acts) = List.length acts.
Proof.
  revert i. induction acts as [| a rest IH]; intros i; simpl.
  - reflexivity.
  - now rewrite IH.
Qed.

Lemma computeControlsFrom_nth
    (c : t) (time : Q) (acts : list string) (i k : nat) :
  (k < List.length acts)%nat ->
  nth k (computeControlsFrom c time i acts) 0 = controlAt c time (i + k).
Proof.
  revert i k. induction acts as [| a rest IH]; intros i k Hk; simpl in *.
  - lia.
  - destruct k as [| k].
    + now rewrite Nat.add_0_r.
    + rewrite IH by lia. f_equal. lia.
Qed.

Lemma computeControlsFrom_app
    (c : t) (time : Q) (l1 l2 : list string) (i : nat) :
  computeControlsFrom c time i (l1 ++ l2)
  = computeControlsFrom c time i l1
    ++ computeControlsFrom c time (i + List.length l1) l2.
Proof.
  revert i. induction l1 as [| a rest IH]; intros i; simpl.
  - now rewrite Nat.add_0_r.
  - rewrite IH. do 3 f_equal. lia.
Qed.

Lemma computeControlsFrom_ext
    (c c' : t) (time : Q) (acts : list string) (i : nat) :
  (forall k, ControlFunctions c k = ControlFunctions c' k) ->
  computeControlsFrom c time i acts = computeControlsFrom c' time i acts.
Proof.
  intros Hsame. revert i.
  induction acts as [| a rest IH]; intros i; simpl.
  - reflexivity.
  - rewrite IH. unfold controlAt. now rewrite Hsame.
Qed.

(** C9.  [computeControls] returns one value per controlled actuator, in
    attachment order: the value of the actuator's function at the current
    time if it has one, [0] if it has none; the entries of the other
    actuators are computed all the same.  Prescribing a function for one
    actuator changes that actuator's entry only, and attaching one more
    actuator appends one entry. *)
Theorem PrescribedController_computeControls_each_actuator
    (c : t) (s : SimTK.State) :
  List.length (computeControls c s) = List.length (actuators c)
  /\ (forall i f,
        (i < List.length (actuators c))%nat ->
        ControlFunctions c i = Some f ->
        nth i (computeControls c s) 0 = calcValue f (SimTK.getTime s))
  /\ (forall i,
        (i < List.length (actuators c))%nat ->
        ControlFunctions c i = None ->
        nth i (computeControls c s) 0 = 0)
  /\ (forall i f j,
        (j < List.length (actuators c))%nat ->
        nth j (computeControls (prescribeControlForActuator i f c) s) 0
        = if Nat.eqb j i then calcValue f (SimTK.getTime s)
          else nth j (computeControls c s) 0)
  /\ (forall name,
        computeControls (addActuator name c) s
        = computeControls c s
          ++ [controlAt c (SimTK.getTime s) (List.length (actuators c))]).
Proof.
  unfold computeControls.
  split; [| split; [| split; [| split]]].
  - apply computeControlsFrom_length.
  - intros i f Hi Hf. rewrite computeControlsFrom_nth by assumption.
    unfold controlAt. simpl. now rewrite Hf.
  - intros i Hi Hf. rewrite computeControlsFrom_nth by assumption.
    unfold controlAt. simpl. now rewrite Hf.
  - intros i f j Hj. simpl actuators.
    rewrite !computeControlsFrom_nth by assumption.
    unfold controlAt. simpl.
    destruct (Nat.eqb j i); reflexivity.
  - intros name. simpl actuators.
    rewrite computeControlsFrom_app. simpl.
    rewrite (computeControlsFrom_ext (addActuator name c) c)
      by reflexivity.
    reflexivity.
Qed.

(** Three actuators, the middle one without a function, at time [3]: the
    controls are [0.25], [0] and [2 * 3]. *)
Lemma PrescribedController_computeControls_each_actuator_witness :
  nth 0 (computeControls Sample.partlyPrescribed (Sample.uniformState 3 0)) 0
  == 0.25
  /\ nth 1 (computeControls Sample.partlyPrescribed (Sample.uniformState 3 0))
       0
     = 0
  /\ nth 2 (computeControls Sample.partlyPrescribed (Sample.uniformState 3 0))
       0
     == 6.
Proof.
  destruct (PrescribedController_computeControls_each_actuator
              Sample.partlyPrescribed (Sample.uniformState 3 0))
    as (_ & Hsome & Hnone & _).
  split; [| split].
  - rewrite (Hsome 0%nat (mkFunction (fun _ => 0.25))).
    + reflexivity.
    + simpl. lia.
    + reflexivity.
  - apply Hnone.
    + simpl. lia.
    + reflexivity.
  - rewrite (Hsome 2%nat (mkFunction (fun time => 2 * time))).
    + vm_compute. reflexivity.
    + simpl. lia.
    + reflexivity.
Defined.

End PrescribedClaims.

Section SynergyClaims.

Import SynergyController.

Local Open Scope Q_scope.

Lemma SynergyController_computeControls_nth
    (c : t) (excitation : nat -> SimTK.State -> Q) (s : SimTK.State)
    (j : nat) :
  (j < getNumActuators c)%nat ->
  nth j (computeControls c excitation s) 0 = controlValue c excitation s j.
Proof. intros Hj. unfold computeControls. now apply nth_map_seq. Qed.

(** C6.  For [K] channels and [M] controlled actuators and any excitation
    values whatever, [computeControls] returns [M] values, the one of
    actuator [j] being the sum over the channels [k] of
    [excitation_k * synergyVector_k[j]].  Nothing is clamped: the controls
    scale with the excitations and add up over them, and the controller of
    section 8 (one channel with vector [[0.3, 0.7]], excitation [2.0])
    returns [[0.6, 1.4]]. *)
Theorem SynergyController_computeControls_unclamped_sum
    (c : t) (excitation : nat -> SimTK.State -> Q) (s : SimTK.State) :
  List.length (computeControls c excitation s) = getNumActuators c
  /\ (forall j,
        (j < getNumActuators c)%nat ->
        nth j (computeControls c excitation s) 0
        = sum (getNumSynergies c)
            (fun k => excitation k s * nth j (nth k (synergy_vectors c) []) 0))
  /\ (forall (scale : Q) j,
        (j < getNumActuators c)%nat ->
        nth j (computeControls c (fun k s' => scale * excitation k s') s) 0
        == scale * nth j (computeControls c excitation s) 0)
  /\ (forall (excitation' : nat -> SimTK.State -> Q) j,
        (j < getNumActuators c)%nat ->
        nth j
          (computeControls c (fun k s' => excitation k s' + excitation' k s')
             s) 0
        == nth j (computeControls c excitation s) 0
           + nth j (computeControls c excitation' s) 0)
  /\ Forall2 Qeq (computeControls Sample.oneChannel (fun _ _ => 2.0) s)
       [0.6; 1.4].
Proof.
  split; [| split; [| split; [| split]]].
  - unfold computeControls. now rewrite length_map, length_seq.
  - intros j Hj. now rewrite SynergyController_computeControls_nth.
  - intros scale j Hj.
    rewrite !SynergyController_computeControls_nth by assumption.
    unfold controlValue. rewrite <- sum_scal.
    apply sum_ext. intros k _. ring.
  - intros excitation' j Hj.
    rewrite !SynergyController_computeControls_nth by assumption.
    unfold controlValue. rewrite <- sum_plus.
    apply sum_ext. intros k _. ring.
  - vm_compute. repeat constructor.
Qed.

(** The second actuator of the controller of section 8 at excitation [2.0],
    far outside [[0, 1]]: its control is [2.0 * 0.7 = 1.4]. *)
Lemma SynergyController_computeControls_unclamped_sum_witness :
  nth 1
    (computeControls Sample.oneChannel (fun _ _ => 2.0)
       (Sample.uniformState 0 0)) 0
  == 1.4.
Proof.
  destruct (SynergyController_computeControls_unclamped_sum
              Sample.oneChannel (fun _ _ => 2.0) (Sample.uniformState 0 0))
    as (_ & Hsum & _).
  rewrite (Hsum 1%nat).
  - vm_compute. reflexivity.
  - vm_compute. lia.
Defined.

End SynergyClaims.

(* ================================================================== *)
(** * The rescaling step cannot raise the error by more than the floor  *)
(* ================================================================== *)

Section RescalingFacts.

Import Rescaling.

Local Open Scope Q_scope.

Lemma square_nonneg (x : Q) : 0 <= x * x.
Proof. nra. Qed.

Lemma sum_minus (n : nat) (f g : nat -> Q) :
  sum n (fun k => f k - g k) == sum n f - sum n g.
Proof.
  induction n as [| n IH]; simpl.
  - ring.
  - rewrite IH. ring.
Qed.

(** Weighted form of the Cauchy-Schwarz inequality, through
    [2 x (sum w y) <= x^2 (sum w) + sum w y^2]. *)
Lemma weighted_mean_bound (m : nat) (w y : nat -> Q) (x : Q) :
  (forall a, (a < m)%nat -> 0 <= w a) ->
  2 * x * sum m (fun a => w a * y a)
  <= sqr x * sum m w + sum m (fun a => w a * sqr (y a)).
Proof.
  intros Hw.
  rewrite <- !sum_scal, <- sum_plus.
  apply sum_le. intros a Ha. specialize (Hw a Ha). unfold sqr.
  pose proof (Qmult_le_0_compat _ _ Hw (square_nonneg (x - y a))). lra.
Qed.

Lemma weighted_cauchy_schwarz (m : nat) (w y : nat -> Q) :
  (forall a, (a < m)%nat -> 0 <= w a) ->
  sqr (sum m (fun a => w a * y a))
  <= sum m w * sum m (fun a => w a * sqr (y a)).
Proof.
  induction m as [| m IH]; intros Hw; simpl.
  - unfold sqr. lra.
  - assert (Hw' : forall a, (a < m)%nat -> 0 <= w a)
      by (intros a Ha; apply Hw; lia).
    specialize (IH Hw').
    pose proof (weighted_mean_bound m w y (y m) Hw') as Hmean.
    assert (Hwm : 0 <= w m) by (apply Hw; lia).
    set (S := sum m (fun a => w a * y a)) in *.
    set (W := sum m w) in *.
    set (Q2 := sum m (fun a => w a * sqr (y a))) in *.
    unfold sqr in *.
    assert (Hprod : 0 <= w m * (y m * y m * W + Q2 - 2 * y m * S)).
    { apply Qmult_le_0_compat; [assumption | lra]. }
    lra.
Qed.

Variables (n m : nat) (B : nat -> nat -> Q) (v : nat -> Q) (floor : Q).
Variable h : nat -> Q.

Hypothesis B_nonneg : forall i a, 0 <= B i a.
Hypothesis h_nonneg : forall a, 0 <= h a.

Lemma predicted_nonneg (i : nat) : 0 <= predicted m B h i.
Proof.
  apply sum_nonneg. intros a _.
  apply Qmult_le_0_compat; [apply B_nonneg | apply h_nonneg].
Qed.

Lemma denominator_floor (a : nat) : floor <= denominator n m B floor h a.
Proof.
  unfold denominator.
  assert (0 <= sum n (fun i => B i a * predicted m B h i)).
  { apply sum_nonneg. intros i _.
    apply Qmult_le_0_compat; [apply B_nonneg | apply predicted_nonneg]. }
  lra.
Qed.

Hypothesis floor_nonneg : 0 <= floor.
Hypothesis denominator_pos :
  forall a, (a < m)%nat -> 0 < denominator n m B floor h a.

(** The ratio by which entry [a] is rescaled. *)
Lemma ratio_denominator (a : nat) :
  (a < m)%nat ->
  numerator n B v a / denominator n m B floor h a
  * denominator n m B floor h a
  == numerator n B v a.
Proof.
  intros Ha. field. pose proof (denominator_pos a Ha). lra.
Qed.

(** The one step: the cost after rescaling exceeds the cost before by at
    most [floor] times the sum of the entries of [h]. *)
Lemma cost_rescale :
  cost n m B v (rescale n m B v floor h)
  <= cost n m B v h + floor * sum m h.
Proof.
  set (q := fun a => numerator n B v a / denominator n m B floor h a).
  set (x := fun a => q a - 1).
  set (A := fun a => sum n (fun i => B i a * predicted m B h i)).
  set (r := fun i => v i - predicted m B h i).
  set (P := fun i => sum m (fun a => (B i a * h a) * x a)).
  (* the prediction after the step *)
  assert (Hpred : forall i,
             predicted m B (rescale n m B v floor h) i
             == predicted m B h i + P i).
  { intros i. unfold predicted, P. rewrite <- sum_plus.
    apply sum_ext. intros a _. unfold rescale, x, q. ring. }
  (* the cost after the step, expanded *)
  assert (Hcost : cost n m B v (rescale n m B v floor h)
                  == cost n m B v h
                     - 2 * sum n (fun i => r i * P i)
                     + sum n (fun i => sqr (P i))).
  { unfold cost. rewrite <- sum_scal, <- sum_minus, <- sum_plus.
    apply sum_ext. intros i _. unfold r, sqr. rewrite Hpred. ring. }
  (* the cross term *)
  assert (Hcross : sum n (fun i => r i * P i)
                   == sum m (fun a => h a * x a * (numerator n B v a - A a))).
  { transitivity
      (sum n (fun i => sum m (fun a => r i * (B i a * h a * x a)))).
    { apply sum_ext. intros i _. unfold P. now rewrite sum_scal. }
    rewrite sum_swap. apply sum_ext. intros a _.
    unfold numerator, A. rewrite <- sum_minus, <- sum_scal.
    apply sum_ext. intros i _. unfold r. ring. }
  (* the square term *)
  assert (Hsquare : sum n (fun i => sqr (P i))
                    <= sum m (fun a => h a * sqr (x a) * A a)).
  { apply Qle_trans with
      (sum n (fun i =>
                sum m (fun a => predicted m B h i
                                * (B i a * h a * sqr (x a))))).
    { apply sum_le. intros i _. rewrite sum_scal.
      apply (weighted_cauchy_schwarz m (fun a => B i a * h a) x).
      intros a _.
      apply Qmult_le_0_compat; [apply B_nonneg | apply h_nonneg]. }
    rewrite sum_swap. apply Qle_lteq. right.
    apply sum_ext. intros a _. unfold A. rewrite <- sum_scal.
    apply sum_ext. intros i _. ring. }
  (* entry by entry, the gain is at most [floor * h a] *)
  assert (Hentry : sum m (fun a => h a * sqr (x a) * A a
                                   - 2 * (h a * x a
                                          * (numerator n B v a - A a)))
                   <= sum m (fun a => floor * h a)).
  { apply sum_le. intros a Ha.
    assert (HA : 0 <= A a).
    { apply sum_nonneg. intros i _.
      apply Qmult_le_0_compat; [apply B_nonneg | apply predicted_nonneg]. }
    assert (Hq : numerator n B v a == q a * (A a + floor)).
    { unfold q. rewrite <- (ratio_denominator a Ha) at 1. reflexivity. }
    rewrite Hq. unfold x, sqr.
    pose proof (h_nonneg a) as Hh.
    pose proof (square_nonneg (q a)) as Hq2.
    pose proof (square_nonneg (q a - 1)) as Hx2.
    assert (H1 : 0 <= h a * ((q a - 1) * (q a - 1) * A a)).
    { apply Qmult_le_0_compat; [assumption |].
      apply Qmult_le_0_compat; assumption. }
    assert (H2 : 0 <= h a * (floor * (q a * q a + (q a - 1) * (q a - 1)))).
    { apply Qmult_le_0_compat; [assumption |].
      apply Qmult_le_0_compat; lra. }
    lra. }
  rewrite sum_minus, sum_scal, sum_scal in Hentry.
  rewrite Hcost, Hcross. lra.
Qed.

End RescalingFacts.

Section RescalingWithFloor.

Import Rescaling.

Local Open Scope Q_scope.

(** With a positive floor every denominator is positive. *)
Lemma cost_rescale_floor
    (n m : nat) (B : nat -> nat -> Q) (v : nat -> Q) (floor : Q)
    (h : nat -> Q) :
  (forall i a, 0 <= B i a) ->
  (forall a, 0 <= h a) ->
  0 < floor ->
  cost n m B v (rescale n m B v floor h)
  <= cost n m B v h + floor * sum m h.
Proof.
  intros HB Hh Hfloor. apply cost_rescale; try assumption.
  - now apply Qlt_le_weak.
  - intros a _. pose proof (denominator_floor n m B floor h HB Hh a). lra.
Qed.

(** Without a floor, and as long as no denominator vanishes, the
    rescaling does not raise the cost. *)
Lemma cost_rescale_floorless
    (n m : nat) (B : nat -> nat -> Q) (v : nat -> Q) (h : nat -> Q) :
  (forall i a, 0 <= B i a) ->
  (forall a, 0 <= h a) ->
  (forall a, (a < m)%nat -> 0 < denominator n m B 0 h a) ->
  cost n m B v (rescale n m B v 0 h) <= cost n m B v h.
Proof.
  intros HB Hh Hden.
  pose proof (cost_rescale n m B v 0 h HB Hh (Qle_refl 0) Hden). lra.
Qed.

End RescalingWithFloor.

Section RescalingExt.

Import Rescaling.

Local Open Scope Q_scope.

Lemma predicted_ext (m : nat) (B : nat -> nat -> Q) (h h' : nat -> Q)
    (i : nat) :
  (forall a, (a < m)%nat -> h a == h' a) ->
  predicted m B h i == predicted m B h' i.
Proof.
  intros Hh. unfold predicted. apply sum_ext. intros a Ha.
  now rewrite (Hh a Ha).
Qed.

Lemma cost_ext (n m : nat) (B : nat -> nat -> Q) (v h h' : nat -> Q) :
  (forall a, (a < m)%nat -> h a == h' a) ->
  cost n m B v h == cost n m B v h'.
Proof.
  intros Hh. unfold cost. apply sum_ext. intros i _. unfold sqr.
  now rewrite (predicted_ext m B h h' i Hh).
Qed.

End RescalingExt.

(* ================================================================== *)
(** * Properties of the factorizer                                      *)
(* ================================================================== *)

Section MatrixFacts.

Import Matrix.

Local Open Scope Q_scope.

Lemma elt_build (r c : nat) (f : nat -> nat -> Q) (i j : nat) :
  (i < r)%nat -> (j < c)%nat -> elt (build r c f) i j = f i j.
Proof.
  intros Hi Hj. unfold elt, build.
  rewrite (nth_indep _ [] (map (f O) (seq 0 c)))
    by now rewrite length_map, length_seq.
  rewrite (map_nth (fun i => map (f i) (seq 0 c))).
  rewrite seq_nth by assumption. simpl.
  now apply nth_map_seq.
Qed.

Lemma nonnegative_build (r c : nat) (f : nat -> nat -> Q) :
  (forall i j, (i < r)%nat -> (j < c)%nat -> 0 <= f i j) ->
  nonnegative (build r c f).
Proof.
  intros H. unfold nonnegative, build.
  apply Forall_forall. intros row Hrow.
  apply in_map_iff in Hrow. destruct Hrow as (i & <- & Hi).
  apply in_seq in Hi.
  apply Forall_forall. intros x Hx.
  apply in_map_iff in Hx. destruct Hx as (j & <- & Hj).
  apply in_seq in Hj.
  apply H; lia.
Qed.

Lemma nonnegative_elt (A : Matrix.t) (i j : nat) :
  nonnegative A -> 0 <= elt A i j.
Proof.
  intros HA. unfold elt.
  assert (Hrow : Forall nonneg (nth i A [])).
  { destruct (Nat.lt_ge_cases i (List.length A)) as [Hi | Hi].
    - unfold nonnegative in HA. rewrite Forall_forall in HA.
      apply HA. now apply nth_In.
    - rewrite nth_overflow by assumption. constructor. }
  destruct (Nat.lt_ge_cases j (List.length (nth i A []))) as [Hj | Hj].
  - rewrite Forall_forall in Hrow. apply Hrow. now apply nth_In.
  - rewrite nth_overflow by assumption. apply Qle_refl.
Qed.

End MatrixFacts.

Section FactorizerFacts.

Import Matrix Factorizer.

Local Open Scope Q_scope.

Variables (T M K : nat) (floor : Q).

Hypothesis floor_pos : 0 < floor.

(** ** Non-negativity *)

Lemma quotient_nonneg (x y : Q) : 0 <= x -> 0 <= y -> 0 <= x / (y + floor).
Proof.
  intros Hx Hy. apply Qle_shift_div_l; lra.
Qed.

Lemma WH_nonneg (Wm Hm : Matrix.t) (i mu : nat) :
  nonnegative Wm -> nonnegative Hm -> 0 <= WH K Wm Hm i mu.
Proof.
  intros HW HH. apply sum_nonneg. intros a _.
  apply Qmult_le_0_compat; now apply nonnegative_elt.
Qed.

Lemma updateH_nonnegative (V Wm Hm : Matrix.t) :
  nonnegative V -> nonnegative Wm -> nonnegative Hm ->
  nonnegative (updateH T M K floor V Wm Hm).
Proof.
  intros HV HW HH. apply nonnegative_build. intros a mu _ _.
  apply Qmult_le_0_compat; [now apply nonnegative_elt |].
  apply quotient_nonneg.
  - apply sum_nonneg. intros i _.
    apply Qmult_le_0_compat; now apply nonnegative_elt.
  - apply sum_nonneg. intros i _.
    apply Qmult_le_0_compat;
      [now apply nonnegative_elt | now apply WH_nonneg].
Qed.

Lemma updateW_nonnegative (V Wm Hm : Matrix.t) :
  nonnegative V -> nonnegative Wm -> nonnegative Hm ->
  nonnegative (updateW T M K floor V Wm Hm).
Proof.
  intros HV HW HH. apply nonnegative_build. intros i a _ _.
  apply Qmult_le_0_compat; [now apply nonnegative_elt |].
  apply quotient_nonneg.
  - apply sum_nonneg. intros mu _.
    apply Qmult_le_0_compat; now apply nonnegative_elt.
  - apply sum_nonneg. intros mu _.
    apply Qmult_le_0_compat;
      [now apply WH_nonneg | now apply nonnegative_elt].
Qed.

Lemma iteration_nonnegative (V : Matrix.t) (WHm : Matrix.t * Matrix.t) :
  nonnegative V -> nonnegative (fst WHm) -> nonnegative (snd WHm) ->
  nonnegative (fst (iteration T M K floor V WHm))
  /\ nonnegative (snd (iteration T M K floor V WHm)).
Proof.
  intros HV HW HH. unfold iteration. simpl.
  assert (HH' : nonnegative (updateH T M K floor V (fst WHm) (snd WHm)))
    by now apply updateH_nonnegative.
  split; [now apply updateW_nonnegative | exact HH'].
Qed.

Lemma iterations_nonnegative
    (count : nat) (V : Matrix.t) (WHm : Matrix.t * Matrix.t) :
  nonnegative V -> nonnegative (fst WHm) -> nonnegative (snd WHm) ->
  nonnegative (fst (iterations T M K floor count V WHm))
  /\ nonnegative (snd (iterations T M K floor count V WHm)).
Proof.
  intros HV HW HH. induction count as [| count IH]; simpl.
  - now split.
  - destruct IH as [IHW IHH]. now apply iteration_nonnegative.
Qed.

Lemma iterateUntil_nonnegative
    (maxIterations : nat) (tolerance : Q) (V : Matrix.t)
    (WHm : Matrix.t * Matrix.t) (prevError : Q) :
  nonnegative V -> nonnegative (fst WHm) -> nonnegative (snd WHm) ->
  nonnegative
    (W (iterateUntil T M K floor maxIterations tolerance V WHm prevError))
  /\ nonnegative
       (H (iterateUntil T M K floor maxIterations tolerance V WHm prevError)).
Proof.
  intros HV. revert WHm prevError.
  induction maxIterations as [| count IH]; intros WHm prevError HW HH; simpl.
  - now split.
  - destruct (iteration_nonnegative V WHm HV HW HH) as [HW' HH'].
    destruct (Qlt_le_dec _ tolerance); simpl.
    + now split.
    + now apply IH.
Qed.

End FactorizerFacts.

Section FactorizerError.

Import Matrix Factorizer Rescaling.

Local Open Scope Q_scope.

Variables (T M K : nat) (floor : Q).

Hypothesis floor_pos : 0 < floor.

(** Column [mu] of the updated [H] is the rescaling of column [mu] of [H]
    against the equations [W h ~ V(., mu)]. *)
Lemma updateH_column (V Wm Hm : Matrix.t) (a mu : nat) :
  (a < K)%nat -> (mu < M)%nat ->
  elt (updateH T M K floor V Wm Hm) a mu
  = rescale T K (elt Wm) (fun i => elt V i mu) floor
      (fun b => elt Hm b mu) a.
Proof.
  intros Ha Hmu. unfold updateH. now rewrite elt_build.
Qed.

(** Row [i] of the updated [W] is the rescaling of row [i] of [W] against
    the equations [H^t w ~ V(i, .)]. *)
Lemma updateW_row (V Wm Hm : Matrix.t) (i a : nat) :
  (i < T)%nat -> (a < K)%nat ->
  elt (updateW T M K floor V Wm Hm) i a
  == rescale M K (fun mu b => elt Hm b mu) (fun mu => elt V i mu) floor
       (fun b => elt Wm i b) a.
Proof.
  intros Hi Ha. unfold updateW. rewrite elt_build by assumption.
  unfold rescale, numerator, denominator, predicted, VHt, WHHt, WH.
  assert (Hnum : sum M (fun mu => elt V i mu * elt Hm a mu)
                 == sum M (fun mu => elt Hm a mu * elt V i mu)).
  { apply sum_ext. intros mu _. ring. }
  assert (Hden : sum M (fun mu =>
                          sum K (fun b => elt Wm i b * elt Hm b mu)
                          * elt Hm a mu)
                 == sum M (fun mu =>
                             elt Hm a mu
                             * sum K (fun b => elt Hm b mu * elt Wm i b))).
  { apply sum_ext. intros mu _.
    rewrite (sum_ext K (fun b => elt Wm i b * elt Hm b mu)
               (fun b => elt Hm b mu * elt Wm i b))
      by (intros b _; ring).
    ring. }
  rewrite Hnum, Hden. reflexivity.
Qed.

(** The error, column by column and row by row. *)
Lemma reconstructionError_columns (V Wm Hm : Matrix.t) :
  reconstructionError T M K V Wm Hm
  == sum M (fun mu =>
              cost T K (elt Wm) (fun i => elt V i mu) (fun b => elt Hm b mu)).
Proof.
  unfold reconstructionError. rewrite sum_swap. reflexivity.
Qed.

Lemma reconstructionError_rows (V Wm Hm : Matrix.t) :
  reconstructionError T M K V Wm Hm
  == sum T (fun i =>
              cost M K (fun mu b => elt Hm b mu) (fun mu => elt V i mu)
                (fun b => elt Wm i b)).
Proof.
  unfold reconstructionError. apply sum_ext. intros i _.
  unfold cost. apply sum_ext. intros mu _.
  unfold sqr, predicted, WH.
  rewrite (sum_ext K (fun a => elt Wm i a * elt Hm a mu)
             (fun a => elt Hm a mu * elt Wm i a))
    by (intros a _; ring).
  reflexivity.
Qed.

(** The update of [H] raises the error by at most [floor] times the sum
    of the entries of [H]. *)
Lemma updateH_error (V Wm Hm : Matrix.t) :
  nonnegative Wm -> nonnegative Hm ->
  reconstructionError T M K V Wm (updateH T M K floor V Wm Hm)
  <= reconstructionError T M K V Wm Hm + floor * sumEntries K M Hm.
Proof.
  intros HW HH.
  rewrite !reconstructionError_columns.
  unfold sumEntries. rewrite sum_swap, <- sum_scal, <- sum_plus.
  apply sum_le. intros mu Hmu.
  rewrite (cost_ext T K (elt Wm) (fun i => elt V i mu)
             (fun b => elt (updateH T M K floor V Wm Hm) b mu)
             (rescale T K (elt Wm) (fun i => elt V i mu) floor
                (fun b => elt Hm b mu))).
  - apply cost_rescale_floor.
    + intros i a. now apply nonnegative_elt.
    + intros a. now apply nonnegative_elt.
    + exact floor_pos.
  - intros a Ha. now rewrite updateH_column.
Qed.

(** The update of [W] raises the error by at most [floor] times the sum
    of the entries of [W]. *)
Lemma updateW_error (V Wm Hm : Matrix.t) :
  nonnegative Wm -> nonnegative Hm ->
  reconstructionError T M K V (updateW T M K floor V Wm Hm) Hm
  <= reconstructionError T M K V Wm Hm + floor * sumEntries T K Wm.
Proof.
  intros HW HH.
  rewrite !reconstructionError_rows.
  unfold sumEntries. rewrite <- sum_scal, <- sum_plus.
  apply sum_le. intros i Hi.
  rewrite (cost_ext M K (fun mu b => elt Hm b mu) (fun mu => elt V i mu)
             (fun b => elt (updateW T M K floor V Wm Hm) i b)
             (rescale M K (fun mu b => elt Hm b mu) (fun mu => elt V i mu)
                floor (fun b => elt Wm i b))).
  - apply cost_rescale_floor.
    + intros mu a. now apply nonnegative_elt.
    + intros a. now apply nonnegative_elt.
    + exact floor_pos.
  - intros a Ha. now apply updateW_row.
Qed.

(** One whole iteration. *)
Lemma iteration_error (V : Matrix.t) (WHm : Matrix.t * Matrix.t) :
  nonnegative V -> nonnegative (fst WHm) -> nonnegative (snd WHm) ->
  reconstructionError T M K V
    (fst (iteration T M K floor V WHm)) (snd (iteration T M K floor V WHm))
  <= reconstructionError T M K V (fst WHm) (snd WHm)
     + floor * (sumEntries K M (snd WHm) + sumEntries T K (fst WHm)).
Proof.
  intros HV HW HH. unfold iteration. simpl.
  pose proof (updateH_error V (fst WHm) (snd WHm) HW HH) as HstepH.
  pose proof (updateW_error V (fst WHm)
                (updateH T M K floor V (fst WHm) (snd WHm)) HW
                (updateH_nonnegative T M K floor floor_pos V (fst WHm)
                   (snd WHm) HV HW HH)) as HstepW.
  lra.
Qed.

End FactorizerError.

Section FactorizerWithoutFloor.

Import Matrix Factorizer Rescaling.

Local Open Scope Q_scope.

Variables (T M K : nat).

(** Without the floor, and as long as no denominator vanishes, neither
    update raises the error: the floor is what the exact monotonicity is
    traded for. *)
Lemma updateH_error_floorless (V Wm Hm : Matrix.t) :
  nonnegative Wm -> nonnegative Hm ->
  (forall a mu, (a < K)%nat -> (mu < M)%nat -> 0 < WtWH T K Wm Hm a mu) ->
  reconstructionError T M K V Wm (updateH T M K 0 V Wm Hm)
  <= reconstructionError T M K V Wm Hm.
Proof.
  intros HW HH Hden.
  rewrite !(reconstructionError_columns T M K).
  apply sum_le. intros mu Hmu.
  rewrite (cost_ext T K (elt Wm) (fun i => elt V i mu)
             (fun b => elt (updateH T M K 0 V Wm Hm) b mu)
             (rescale T K (elt Wm) (fun i => elt V i mu) 0
                (fun b => elt Hm b mu))).
  - apply cost_rescale_floorless.
    + intros i a. now apply nonnegative_elt.
    + intros a. now apply nonnegative_elt.
    + intros a Ha. specialize (Hden a mu Ha Hmu).
      unfold denominator, predicted. unfold WtWH, WH in Hden. lra.
  - intros a Ha. now rewrite updateH_column.
Qed.

Lemma updateW_error_floorless (V Wm Hm : Matrix.t) :
  nonnegative Wm -> nonnegative Hm ->
  (forall i a, (i < T)%nat -> (a < K)%nat -> 0 < WHHt M K Wm Hm i a) ->
  reconstructionError T M K V (updateW T M K 0 V Wm Hm) Hm
  <= reconstructionError T M K V Wm Hm.
Proof.
  intros HW HH Hden.
  rewrite !(reconstructionError_rows T M K).
  apply sum_le. intros i Hi.
  rewrite (cost_ext M K (fun mu b => elt Hm b mu) (fun mu => elt V i mu)
             (fun b => elt (updateW T M K 0 V Wm Hm) i b)
             (rescale M K (fun mu b => elt Hm b mu) (fun mu => elt V i mu)
                0 (fun b => elt Wm i b))).
  - apply cost_rescale_floorless.
    + intros mu a. now apply nonnegative_elt.
    + intros a. now apply nonnegative_elt.
    + intros a Ha. specialize (Hden i a Hi Ha).
      unfold denominator, predicted. unfold WHHt, WH in Hden.
      assert (Hsame :
                sum M (fun mu =>
                         elt Hm a mu
                         * sum K (fun b => elt Hm b mu * elt Wm i b))
                == sum M (fun mu =>
                            sum K (fun b => elt Wm i b * elt Hm b mu)
                            * elt Hm a mu)).
      { apply sum_ext. intros mu _.
        rewrite (sum_ext K (fun b => elt Hm b mu * elt Wm i b)
                   (fun b => elt Wm i b * elt Hm b mu))
          by (intros b _; ring).
        ring. }
      rewrite Hsame. lra.
  - intros a Ha. now apply updateW_row.
Qed.

End FactorizerWithoutFloor.

Section FactorizerClaims.

Import Matrix Factorizer.

Local Open Scope Q_scope.

Lemma iterations_shift
    (T M K : nat) (floor : Q) (count : nat) (V : Matrix.t)
    (WHm : Matrix.t * Matrix.t) :
  iterations T M K floor (S count) V WHm
  = iterations T M K floor count V (iteration T M K floor V WHm).
Proof.
  induction count as [| count IH].
  - reflexivity.
  - change (iterations T M K floor (S (S count)) V WHm)
      with (iteration T M K floor V (iterations T M K floor (S count) V WHm)).
    rewrite IH. reflexivity.
Qed.

(** What the factorizer returns is the pair of factors reached after some
    number of iterations, at most the cap. *)
Lemma iterateUntil_is_iterate
    (T M K : nat) (floor : Q) (maxIterations : nat) (tolerance : Q)
    (V : Matrix.t) (WHm : Matrix.t * Matrix.t) (prevError : Q) :
  exists count,
    (count <= maxIterations)%nat
    /\ W (iterateUntil T M K floor maxIterations tolerance V WHm prevError)
       = fst (iterations T M K floor count V WHm)
    /\ H (iterateUntil T M K floor maxIterations tolerance V WHm prevError)
       = snd (iterations T M K floor count V WHm).
Proof.
  revert WHm prevError.
  induction maxIterations as [| cap IH]; intros WHm prevError.
  - exists O. simpl. repeat split. lia.
  - cbn [iterateUntil].
    destruct (Qlt_le_dec _ tolerance).
    + exists 1%nat. simpl. repeat split. lia.
    + destruct (IH (iteration T M K floor V WHm)
                  (reconstructionError T M K V
                     (fst (iteration T M K floor V WHm))
                     (snd (iteration T M K floor V WHm))))
        as (count & Hle & HW & HH).
      exists (S count). rewrite iterations_shift.
      repeat split; [lia | exact HW | exact HH].
Qed.

(** C7.  For an entrywise non-negative [V], any rank, iteration cap and
    tolerance (with non-negative seeds and a positive floor), every entry
    of the returned [W] and [H] is [>= 0]; so is every entry of the factors
    after any number of iterations. *)
Theorem factorizeMatrixNonNegative_factors_nonnegative
    (floor : Q) (W0 H0 V : Matrix.t)
    (numFactors maxIterations : nat) (tolerance : Q) :
  0 < floor ->
  nonnegative W0 -> nonnegative H0 -> nonnegative V ->
  (nonnegative
     (W (factorizeMatrixNonNegative floor W0 H0 V numFactors maxIterations
           tolerance))
   /\ nonnegative
        (H (factorizeMatrixNonNegative floor W0 H0 V numFactors
              maxIterations tolerance)))
  /\ forall count,
       nonnegative
         (fst (iterations (nrow V) (ncol V) numFactors floor count V
                 (W0, H0)))
       /\ nonnegative
            (snd (iterations (nrow V) (ncol V) numFactors floor count V
                    (W0, H0))).
Proof.
  intros Hfloor HW HH HV. split.
  - unfold factorizeMatrixNonNegative.
    now apply iterateUntil_nonnegative.
  - intros count. now apply iterations_nonnegative.
Qed.

Lemma factorizeMatrixNonNegative_factors_nonnegative_witness :
  nonnegative
    (W (factorizeMatrixNonNegative Sample.smallFloor Sample.seedW
          Sample.seedH Sample.excitations 1 3 (1 # 1000000)))
  /\ nonnegative
       (H (factorizeMatrixNonNegative Sample.smallFloor Sample.seedW
             Sample.seedH Sample.excitations 1 3 (1 # 1000000))).
Proof.
  assert (Hfloor : 0 < Sample.smallFloor) by reflexivity.
  assert (HW : nonnegative Sample.seedW)
    by (repeat constructor; discriminate).
  assert (HH : nonnegative Sample.seedH)
    by (repeat constructor; discriminate).
  assert (HV : nonnegative Sample.excitations)
    by (repeat constructor; discriminate).
  destruct (factorizeMatrixNonNegative_factors_nonnegative
              Sample.smallFloor Sample.seedW Sample.seedH
              Sample.excitations 1 3 (1 # 1000000) Hfloor HW HH HV)
    as [Hreturned _].
  exact Hreturned.
Defined.

(** With any positive floor, the one by one matrix [[1]] seeded with its
    exact factors [[1]] and [[1]] starts at error [0] and has a positive
    error after one iteration. *)
Lemma unit_error_rises (floor : Q) :
  0 < floor ->
  reconstructionError 1 1 1 Sample.oneByOne Sample.oneByOne Sample.oneByOne == 0
  /\ 0 < reconstructionError 1 1 1 Sample.oneByOne
           (fst (iteration 1 1 1 floor Sample.oneByOne
                   (Sample.oneByOne, Sample.oneByOne)))
           (snd (iteration 1 1 1 floor Sample.oneByOne
                   (Sample.oneByOne, Sample.oneByOne))).
Proof.
  intros Hfloor. split.
  - vm_compute. reflexivity.
  - unfold iteration, reconstructionError, updateW, updateH, WH, WtV, WtWH,
      VHt, WHHt, build, elt, Sample.oneByOne, sqr.
    cbn [fst snd sum map seq nth]. unfold WH, elt. cbn [sum nth].
    set (h := 1 * ((0 + 1 * 1) / (0 + 1 * (0 + 1 * 1) + floor))).
    assert (Hh : 0 <= h * h) by apply square_nonneg.
    set (t := 1 - (0 + 1 * ((0 + 1 * h) / (0 + (0 + 1 * h) * h + floor)) * h)).
    assert (Ht : t == floor / (h * h + floor)).
    { unfold t. field. lra. }
    assert (Htpos : 0 < t).
    { rewrite Ht. apply Qlt_shift_div_l; lra. }
    assert (0 < t * t) by (apply Qmult_lt_0_compat; assumption).
    lra.
Qed.

(** C8, as stated, fails: on the non-negative matrix [[1]], seeded with
    its exact factors, the error is [0] before the first iteration and
    positive after it. *)
Lemma reconstructionError_rises_on_unit :
  nonnegative Sample.oneByOne
  /\ 0 < Sample.smallFloor
  /\ ~ reconstructionError 1 1 1 Sample.oneByOne
        (fst (iterations 1 1 1 Sample.smallFloor 1 Sample.oneByOne
                (Sample.oneByOne, Sample.oneByOne)))
        (snd (iterations 1 1 1 Sample.smallFloor 1 Sample.oneByOne
                (Sample.oneByOne, Sample.oneByOne)))
      <= reconstructionError 1 1 1 Sample.oneByOne
           (fst (iterations 1 1 1 Sample.smallFloor 0 Sample.oneByOne
                   (Sample.oneByOne, Sample.oneByOne)))
           (snd (iterations 1 1 1 Sample.smallFloor 0 Sample.oneByOne
                   (Sample.oneByOne, Sample.oneByOne))).
Proof.
  assert (Hfloor : 0 < Sample.smallFloor) by reflexivity.
  destruct (unit_error_rises Sample.smallFloor Hfloor) as [Hbefore Hafter].
  split; [repeat constructor; discriminate | split; [exact Hfloor |]].
  cbn [iterations fst snd]. lra.
Qed.

(** C8, amended.  For an entrywise non-negative [V] (non-negative seeds,
    positive floor), one multiplicative-update iteration raises the squared
    reconstruction error by at most the floor times the sum of the entries
    of the two factors it started from: the error after iteration
    [count + 1] is at most the error after iteration [count] plus
    [floor * (sum of the entries of H + sum of the entries of W)].  The
    same holds of each half of an iteration, the update of [H] and the
    update of [W]. *)
Theorem reconstructionError_rise_bounded_by_floor
    (T M K : nat) (floor : Q) (V W0 H0 : Matrix.t) (count : nat) :
  0 < floor ->
  nonnegative V -> nonnegative W0 -> nonnegative H0 ->
  reconstructionError T M K V
    (fst (iterations T M K floor (S count) V (W0, H0)))
    (snd (iterations T M K floor (S count) V (W0, H0)))
  <= reconstructionError T M K V
       (fst (iterations T M K floor count V (W0, H0)))
       (snd (iterations T M K floor count V (W0, H0)))
     + floor
       * (sumEntries K M (snd (iterations T M K floor count V (W0, H0)))
          + sumEntries T K (fst (iterations T M K floor count V (W0, H0))))
  /\ reconstructionError T M K V W0 (updateH T M K floor V W0 H0)
     <= reconstructionError T M K V W0 H0 + floor * sumEntries K M H0
  /\ reconstructionError T M K V (updateW T M K floor V W0 H0) H0
     <= reconstructionError T M K V W0 H0 + floor * sumEntries T K W0.
Proof.
  intros Hfloor HV HW HH.
  split; [| split].
  - destruct (iterations_nonnegative T M K floor Hfloor count V (W0, H0)
                HV HW HH) as [HWn HHn].
    cbn [iterations].
    now apply iteration_error.
  - now apply updateH_error.
  - now apply updateW_error.
Qed.

Lemma reconstructionError_rise_bounded_by_floor_witness :
  reconstructionError 2 2 1 Sample.excitations Sample.seedW
    (updateH 2 2 1 Sample.smallFloor Sample.excitations Sample.seedW
       Sample.seedH)
  <= reconstructionError 2 2 1 Sample.excitations Sample.seedW Sample.seedH
     + Sample.smallFloor * sumEntries 1 2 Sample.seedH.
Proof.
  assert (Hfloor : 0 < Sample.smallFloor) by reflexivity.
  assert (HW : nonnegative Sample.seedW)
    by (repeat constructor; discriminate).
  assert (HH : nonnegative Sample.seedH)
    by (repeat constructor; discriminate).
  assert (HV : nonnegative Sample.excitations)
    by (repeat constructor; discriminate).
  destruct (reconstructionError_rise_bounded_by_floor 2 2 1
              Sample.smallFloor Sample.excitations Sample.seedW
              Sample.seedH 0 Hfloor HV HW HH)
    as (_ & HstepH & _).
  exact HstepH.
Defined.

End FactorizerClaims.

(* ================================================================== *)
(** * Further properties of the coordinate actuator                     *)
(* ================================================================== *)

Section ActuatorLifecycle.

Import CoordinateActuator.

Local Open Scope Q_scope.

Lemma contains_of_member (cs : CoordinateSet) (c : Coordinate) :
  In c cs -> Set_.contains cs (Coordinate_getName c) = true.
Proof.
  intros Hin. unfold Set_.contains. apply existsb_exists.
  exists c. split; [exact Hin | apply String.eqb_refl].
Qed.

Lemma get_of_member (cs : CoordinateSet) (c : Coordinate) :
  NoDup (map Coordinate_getName cs) ->
  In c cs ->
  Set_.get cs (Coordinate_getName c) = Some c.
Proof.
  unfold Set_.get.
  induction cs as [| d rest IH]; intros Hnd Hin; simpl in *.
  - contradiction.
  - inversion Hnd as [| x l Hnotin Hnd']; subst.
    destruct Hin as [-> | Hin].
    + now rewrite String.eqb_refl.
    + destruct (String.eqb_spec (Coordinate_getName d)
                  (Coordinate_getName c)) as [E | _].
      * exfalso. apply Hnotin. rewrite E. now apply in_map.
      * now apply IH.
Qed.

Lemma setup_found (aModel : Model) (a : t) :
  Set_.contains (updCoordinateSet aModel) (coordinate a) = true ->
  setup aModel a
  = Returned
      (set_coord (Set_.get (updCoordinateSet aModel) (coordinate a))
         (Actuator_setup aModel a)).
Proof. intros H. unfold setup. simpl. now rewrite H. Qed.

Lemma setup_missing (aModel : Model) (a : t) :
  Set_.contains (updCoordinateSet aModel) (coordinate a) = false ->
  setup aModel a
  = Threw (mkException (invalidCoordinateMessage (coordinate a) (getName a)))
      (Actuator_setup aModel a).
Proof. intros H. unfold setup. simpl. now rewrite H. Qed.

Lemma setup_returned_inv (aModel : Model) (a a' : t) :
  setup aModel a = Returned a' ->
  Set_.contains (updCoordinateSet aModel) (coordinate a) = true
  /\ a' = set_coord (Set_.get (updCoordinateSet aModel) (coordinate a))
            (Actuator_setup aModel a).
Proof.
  intros H.
  destruct (Set_.contains (updCoordinateSet aModel) (coordinate a)) eqn:E.
  - rewrite (setup_found aModel a E) in H. now inversion H.
  - rewrite (setup_missing aModel a E) in H. discriminate.
Qed.

(** X1.  Whenever a coordinate is bound, the coordinate-name property is
    that coordinate's name: the constructor, [setCoordinate], [copyData]
    and [updateFromXMLNode] (whatever the base class read from the XML
    node) establish it, and [setOptimalForce] and [setup] (whether it
    returns or throws) keep it. *)
Theorem nameMatchesCoordinate_kept
    (XmlElement : Type)
    (Actuator_updateFromXMLNode : XmlElement -> Z -> t -> t)
    (a : t) :
  (forall aCoordinateName, nameMatchesCoordinate (new aCoordinateName))
  /\ (forall aCoordinate,
        nameMatchesCoordinate (setCoordinate aCoordinate a))
  /\ (forall aGenForce,
        nameMatchesCoordinate (receiver (copyData aGenForce a)))
  /\ (forall aNode versionNumber,
        nameMatchesCoordinate
          (updateFromXMLNode XmlElement Actuator_updateFromXMLNode aNode
             versionNumber a))
  /\ (nameMatchesCoordinate a ->
      (forall aOptimalForce,
         nameMatchesCoordinate (receiver (setOptimalForce aOptimalForce a)))
      /\ (forall aModel,
            nameMatchesCoordinate (receiver (setup aModel a)))).
Proof.
  assert (Hset : forall aCoordinate b,
             nameMatchesCoordinate (setCoordinate aCoordinate b)).
  { intros [c |] b d Hd; simpl in Hd.
    - now inversion Hd.
    - discriminate. }
  split; [| split; [| split; [| split]]].
  - intros n c Hc. discriminate.
  - intros aCoordinate. apply Hset.
  - intros src. unfold copyData, setOptimalForce, receiver.
    intros c Hc.
    apply (Hset (getCoordinate src)
             (setPropertyValue_coordinate (coordinate src) a) c).
    exact Hc.
  - intros aNode versionNumber. unfold updateFromXMLNode. apply Hset.
  - intros Ha. split.
    + intros v c Hc. apply Ha. exact Hc.
    + intros aModel c Hc.
      destruct (Set_.contains (updCoordinateSet aModel) (coordinate a))
        eqn:E.
      * rewrite (setup_found aModel a E) in Hc |- *. simpl in Hc |- *.
        destruct (contains_get _ _ E) as (d & Hget & _ & Hname).
        rewrite Hget in Hc. inversion Hc; subst. now rewrite Hname.
      * rewrite (setup_missing aModel a E) in Hc |- *. simpl in Hc |- *.
        now apply Ha.
Qed.

Lemma nameMatchesCoordinate_kept_witness :
  nameMatchesCoordinate (receiver (setOptimalForce (-2) Sample.kneeActuator))
  /\ nameMatchesCoordinate (receiver (setup Sample.arm Sample.kneeActuator)).
Proof.
  assert (Hknee : nameMatchesCoordinate Sample.kneeActuator).
  { intros c Hc. vm_compute in Hc. inversion Hc. reflexivity. }
  destruct (nameMatchesCoordinate_kept
              unit (fun _ _ b => b) Sample.kneeActuator)
    as (_ & _ & _ & _ & Hkept).
  destruct (Hkept Hknee) as [Hforce Hsetup].
  split; [apply Hforce | apply Hsetup].
Defined.

(** X2.  [setup] is idempotent: setting an actuator up a second time in
    the same model, whether the first call returned or threw, ends as the
    first call did, with the same actuator and the same exception. *)
Theorem setup_idempotent (aModel : Model) (a : t) :
  setup aModel (receiver (setup aModel a)) = setup aModel a.
Proof.
  destruct (Set_.contains (updCoordinateSet aModel) (coordinate a)) eqn:E.
  - rewrite (setup_found aModel a E). simpl receiver.
    rewrite setup_found by exact E. reflexivity.
  - rewrite (setup_missing aModel a E). simpl receiver.
    rewrite setup_missing by exact E. reflexivity.
Qed.

(** X3.  After a [setup] that returned, [check] succeeds and prints
    nothing, and [computeForce] applies the settled force to the
    coordinate found under the actuator's coordinate name, writing no
    report.  After a [setup] that threw on an actuator that had no
    coordinate, [check] fails and prints the actuator's name and the
    coordinate name. *)
Theorem setup_decides_check
    (applyGeneralizedForce :
       SimTK.State -> Coordinate -> Q -> SimTK.Vector -> SimTK.Vector)
    (aModel : Model) (a : t) :
  (fails (setup aModel a) = false ->
     check (receiver (setup aModel a)) = (true, [])
     /\ exists c,
          Set_.get (updCoordinateSet aModel) (coordinate a) = Some c
          /\ forall env,
               cout (computeForce applyGeneralizedForce
                       (receiver (setup aModel a)) env)
               = cout env
               /\ mobilityForces
                    (computeForce applyGeneralizedForce
                       (receiver (setup aModel a)) env)
                  = applyGeneralizedForce
                      (state (computeForce applyGeneralizedForce
                                (receiver (setup aModel a)) env))
                      c
                      (settledForce (receiver (setup aModel a)) (state env))
                      (mobilityForces env))
  /\ (fails (setup aModel a) = true ->
      _coord a = None ->
      check (receiver (setup aModel a))
      = (false,
         [("CoordinateActuator.check: ERROR- " ++ getName a
             ++ " actuates ")%string;
          ("an invalid generalized coordinate (" ++ coordinate a
             ++ ").")%string])).
Proof.
  destruct (Set_.contains (updCoordinateSet aModel) (coordinate a)) eqn:E.
  - rewrite (setup_found aModel a E). simpl fails. simpl receiver.
    split; [intros _ | discriminate].
    destruct (contains_get _ _ E) as (c & Hget & _ & _).
    rewrite Hget. split; [reflexivity |].
    exists c. split; [reflexivity |]. intros env.
    rewrite (computeForce_valid applyGeneralizedForce
               (set_coord (Some c) (Actuator_setup aModel a)) env aModel c
               eq_refl eq_refl).
    split; reflexivity.
  - rewrite (setup_missing aModel a E). simpl fails. simpl receiver.
    split; [discriminate | intros _ Hnone].
    unfold check, isCoordinateValid. simpl. rewrite Hnone. reflexivity.
Qed.

Lemma setup_decides_check_witness :
  check (receiver (setup Sample.leg (Sample.named "knee_act" "knee")))
  = (true, [])
  /\ fst (check (receiver (setup Sample.leg (Sample.named "toe_act" "toe"))))
     = false.
Proof.
  destruct (setup_decides_check Sample.addInMobilityForce Sample.leg
              (Sample.named "knee_act" "knee")) as [Hfound _].
  destruct (setup_decides_check Sample.addInMobilityForce Sample.leg
              (Sample.named "toe_act" "toe")) as [_ Hmissing].
  split.
  - destruct (Hfound eq_refl) as [Hcheck _]. exact Hcheck.
  - rewrite (Hmissing eq_refl eq_refl). reflexivity.
Defined.

(** X4.  A failed [setup] does not unbind: when an actuator resolved in
    one model is set up in a model that has no coordinate of its name, the
    call throws, yet the actuator is left attached to the new model and
    still bound to the coordinate of the old one, and [check] passes. *)
Theorem setup_failure_keeps_old_coordinate (aModel other : Model) (a a' : t) :
  setup aModel a = Returned a' ->
  Set_.contains (updCoordinateSet other) (coordinate a) = false ->
  fails (setup other a') = true
  /\ _model (receiver (setup other a')) = Some other
  /\ (exists c,
        _coord (receiver (setup other a')) = Some c
        /\ In c (updCoordinateSet aModel)
        /\ Set_.contains (updCoordinateSet other) (Coordinate_getName c)
           = false)
  /\ isCoordinateValid (receiver (setup other a')) = true
  /\ check (receiver (setup other a')) = (true, []).
Proof.
  intros Hfirst Hmissing.
  destruct (setup_returned_inv aModel a a' Hfirst) as [Hfound ->].
  destruct (contains_get _ _ Hfound) as (c & Hget & Hin & Hname).
  rewrite Hget.
  rewrite setup_missing by exact Hmissing.
  simpl. repeat split.
  exists c. repeat split; [exact Hin | now rewrite Hname].
Qed.

Lemma setup_failure_keeps_old_coordinate_witness :
  fails (setup Sample.arm Sample.kneeActuator) = true
  /\ check Sample.movedKnee = (true, []).
Proof.
  destruct (setup_failure_keeps_old_coordinate Sample.leg Sample.arm
              (Sample.named "knee_act" "knee") Sample.kneeActuator
              eq_refl eq_refl)
    as (Hfails & _ & _ & _ & Hcheck).
  split; [exact Hfails | exact Hcheck].
Defined.

End ActuatorLifecycle.

Section ActuatorBinding.

Import CoordinateActuator.

Local Open Scope Q_scope.

(** X5.  Binding by pointer and binding by name agree.  [setCoordinate]
    with a coordinate of a model whose coordinate names are distinct
    records the coordinate and its name, but a detached actuator still
    fails [check]; a [setup] in that model then returns, leaves the very
    same coordinate bound, and [check] passes. *)
Theorem setCoordinate_then_setup (aModel : Model) (c : Coordinate) (a : t) :
  NoDup (map Coordinate_getName (updCoordinateSet aModel)) ->
  In c (updCoordinateSet aModel) ->
  _model a = None ->
  getCoordinate (setCoordinate (Some c) a) = Some c
  /\ coordinate (setCoordinate (Some c) a) = Coordinate_getName c
  /\ fst (check (setCoordinate (Some c) a)) = false
  /\ fails (setup aModel (setCoordinate (Some c) a)) = false
  /\ getCoordinate (receiver (setup aModel (setCoordinate (Some c) a)))
     = Some c
  /\ check (receiver (setup aModel (setCoordinate (Some c) a))) = (true, []).
Proof.
  intros Hnd Hin Hdetached.
  assert (Hfound :
            Set_.contains (updCoordinateSet aModel)
              (coordinate (setCoordinate (Some c) a)) = true)
    by (simpl; now apply contains_of_member).
  rewrite (setup_found aModel _ Hfound). simpl coordinate.
  rewrite (get_of_member _ c Hnd Hin).
  repeat split.
  unfold check, isCoordinateValid. simpl. now rewrite Hdetached.
Qed.

Lemma setCoordinate_then_setup_witness :
  getCoordinate
    (receiver
       (setup Sample.leg
          (setCoordinate (Some (mkCoordinate "ankle" 2)) (new "knee"))))
  = Some (mkCoordinate "ankle" 2).
Proof.
  destruct (setCoordinate_then_setup Sample.leg (mkCoordinate "ankle" 2)
              (new "knee"))
    as (_ & _ & _ & _ & Hbound & _).
  - repeat constructor; simpl; intuition discriminate.
  - simpl. tauto.
  - reflexivity.
  - exact Hbound.
Defined.

(** X6.  Unbinding and setting up again is a round trip: after
    [setCoordinate(NULL)] the coordinate name is still there, and [setup]
    in the same model gives back the actuator that the first [setup]
    returned. *)
Theorem setCoordinate_null_then_setup (aModel : Model) (a a' : t) :
  setup aModel a = Returned a' ->
  getCoordinate (setCoordinate None a') = None
  /\ coordinate (setCoordinate None a') = coordinate a
  /\ setup aModel (setCoordinate None a') = Returned a'.
Proof.
  intros Hfirst.
  destruct (setup_returned_inv aModel a a' Hfirst) as [Hfound ->].
  split; [reflexivity | split; [reflexivity |]].
  rewrite setup_found by exact Hfound. reflexivity.
Qed.

Lemma setCoordinate_null_then_setup_witness :
  setup Sample.leg (setCoordinate None Sample.kneeActuator)
  = Returned Sample.kneeActuator.
Proof.
  destruct (setCoordinate_null_then_setup Sample.leg
              (Sample.named "knee_act" "knee") Sample.kneeActuator eq_refl)
    as (_ & _ & Hback).
  exact Hback.
Defined.

(** X7.  [copyData] returns normally and makes the receiver agree with the
    source on the bound coordinate and the optimal force, leaving the
    receiver's own name and model alone.  The coordinate name it ends with
    is the name of the source's bound coordinate, or the source's
    coordinate name when the source has none bound; copying twice is
    copying once.  Since the model is not copied, data copied from a
    resolved actuator do not make a detached receiver pass [check]. *)
Theorem copyData_fields (aGenForce a : t) :
  fails (copyData aGenForce a) = false
  /\ _coord (receiver (copyData aGenForce a)) = _coord aGenForce
  /\ optimal_force (receiver (copyData aGenForce a))
     = optimal_force aGenForce
  /\ getName (receiver (copyData aGenForce a)) = getName a
  /\ _model (receiver (copyData aGenForce a)) = _model a
  /\ coordinate (receiver (copyData aGenForce a))
     = match _coord aGenForce with
       | Some c => Coordinate_getName c
       | None => coordinate aGenForce
       end
  /\ copyData aGenForce (receiver (copyData aGenForce a))
     = copyData aGenForce a
  /\ (_model a = None ->
      fst (check (receiver (copyData aGenForce a))) = false).
Proof.
  unfold copyData, setOptimalForce, getCoordinate, getOptimalForce.
  destruct (_coord aGenForce) as [c |] eqn:Hc; simpl.
  - repeat split. intros Hdetached.
    unfold check, isCoordinateValid. simpl. now rewrite Hdetached.
  - repeat split. intros Hdetached.
    unfold check, isCoordinateValid. simpl. now rewrite Hdetached.
Qed.

Lemma copyData_fields_witness :
  fst (check (receiver (copyData Sample.kneeActuator (new "hip")))) = false.
Proof.
  destruct (copyData_fields Sample.kneeActuator (new "hip"))
    as (_ & _ & _ & _ & _ & _ & _ & Hcheck).
  apply Hcheck. reflexivity.
Defined.

End ActuatorBinding.

Section ActuatorEvaluation.

Import CoordinateActuator.

Local Open Scope Q_scope.

Variable applyGeneralizedForce :
  SimTK.State -> Coordinate -> Q -> SimTK.Vector -> SimTK.Vector.

Lemma entry_setForce (a b : t) (s : SimTK.State) (f : Q) :
  entry b (setForce a s f)
  = if String.eqb (getName b) (getName a)
    then SimTK.mkActuatorEntry (SimTK.control (entry b s)) f
           (SimTK.overridden (entry b s)) (SimTK.overrideForce (entry b s))
    else entry b s.
Proof.
  unfold entry, setForce. simpl.
  destruct (String.eqb_spec (getName b) (getName a)) as [E | _].
  - now rewrite E.
  - reflexivity.
Qed.

Lemma computeForce_cout (a : t) (env : Env) :
  cout (computeForce applyGeneralizedForce a env)
  = cout env
    ++ (if isAttached a && negb (isCoordinateValid a)
        then [invalidCoordinateReport] else []).
Proof.
  unfold computeForce, isAttached, isCoordinateValid.
  destruct (_model a) as [m |]; simpl.
  - destruct (_coord a) as [c |]; simpl.
    + now rewrite app_nil_r.
    + reflexivity.
  - now rewrite app_nil_r.
Qed.

Lemma computeForce_mobilityForces_invalid (a : t) (env : Env) :
  isCoordinateValid a = false ->
  mobilityForces (computeForce applyGeneralizedForce a env)
  = mobilityForces env.
Proof.
  intros Hv. unfold computeForce. rewrite Hv.
  destruct (_model a); reflexivity.
Qed.

Lemma computeForces_bodyForces (batch : list t) (env : Env) :
  bodyForces (computeForces applyGeneralizedForce batch env)
  = bodyForces env.
Proof.
  revert env. induction batch as [| a rest IH]; intros env.
  - reflexivity.
  - rewrite computeForces_cons, IH. apply computeForce_bodyForces.
Qed.

Lemma computeForces_cout (batch : list t) (env : Env) :
  cout (computeForces applyGeneralizedForce batch env)
  = cout env
    ++ repeat invalidCoordinateReport
         (List.length
            (filter (fun a => isAttached a && negb (isCoordinateValid a))
               batch)).
Proof.
  revert env. induction batch as [| a rest IH]; intros env.
  - simpl. now rewrite app_nil_r.
  - rewrite computeForces_cons, IH, computeForce_cout. simpl filter.
    destruct (isAttached a && negb (isCoordinateValid a)); simpl.
    + now rewrite <- app_assoc.
    + now rewrite app_nil_r.
Qed.

Lemma computeForces_skips_detached (batch : list t) (env : Env) :
  computeForces applyGeneralizedForce batch env
  = computeForces applyGeneralizedForce (filter isAttached batch) env.
Proof.
  revert env. induction batch as [| a rest IH]; intros env.
  - reflexivity.
  - rewrite computeForces_cons. simpl filter.
    destruct (_model a) as [m |] eqn:Hm.
    + assert (Ha : isAttached a = true)
        by (unfold isAttached; now rewrite Hm).
      rewrite Ha, computeForces_cons. apply IH.
    + assert (Ha : isAttached a = false)
        by (unfold isAttached; now rewrite Hm).
      rewrite Ha.
      rewrite (computeForce_detached applyGeneralizedForce a env Hm).
      apply IH.
Qed.

Lemma computeForces_mobilityForces_invalid (batch : list t) (env : Env) :
  (forall a, In a batch -> isCoordinateValid a = false) ->
  mobilityForces (computeForces applyGeneralizedForce batch env)
  = mobilityForces env.
Proof.
  revert env. induction batch as [| a rest IH]; intros env Hall.
  - reflexivity.
  - rewrite computeForces_cons, IH.
    + apply computeForce_mobilityForces_invalid. apply Hall. now left.
    + intros b Hb. apply Hall. now right.
Qed.

(** X8.  Over a whole batch the body forces are never touched; the output
    grows by exactly one report per attached actuator without a valid
    coordinate; detached actuators count for nothing, the batch without
    them giving the same result; and a batch without any valid actuator
    leaves the mobility forces as they were. *)
Theorem computeForces_batch_effects (batch : list t) (env : Env) :
  bodyForces (computeForces applyGeneralizedForce batch env)
  = bodyForces env
  /\ cout (computeForces applyGeneralizedForce batch env)
     = cout env
       ++ repeat invalidCoordinateReport
            (List.length
               (filter (fun a => isAttached a && negb (isCoordinateValid a))
                  batch))
  /\ computeForces applyGeneralizedForce batch env
     = computeForces applyGeneralizedForce (filter isAttached batch) env
  /\ ((forall a, In a batch -> isCoordinateValid a = false) ->
      mobilityForces (computeForces applyGeneralizedForce batch env)
      = mobilityForces env).
Proof.
  split; [apply computeForces_bodyForces |].
  split; [apply computeForces_cout |].
  split; [apply computeForces_skips_detached |].
  apply computeForces_mobilityForces_invalid.
Qed.

(** X9.  A second evaluation of the same actuator leaves every entry of
    the state cache as the first left it: the settled force does not
    depend on the force cached before.  The accumulator is another
    matter: for a valid actuator the generalized force is applied once
    per evaluation. *)
Theorem computeForce_twice (a b : t) (env : Env) :
  entry b
    (state (computeForce applyGeneralizedForce a
              (computeForce applyGeneralizedForce a env)))
  = entry b (state (computeForce applyGeneralizedForce a env))
  /\ forall m c,
       _model a = Some m -> _coord a = Some c ->
       mobilityForces
         (computeForce applyGeneralizedForce a
            (computeForce applyGeneralizedForce a env))
       = applyGeneralizedForce
           (state (computeForce applyGeneralizedForce a
                     (computeForce applyGeneralizedForce a env)))
           c (settledForce a (state env))
           (applyGeneralizedForce
              (state (computeForce applyGeneralizedForce a env))
              c (settledForce a (state env)) (mobilityForces env)).
Proof.
  split.
  - destruct (_model a) as [m |] eqn:Hm.
    + rewrite (computeForce_state applyGeneralizedForce a
                 (computeForce applyGeneralizedForce a env) m Hm).
      rewrite settledForce_computeForce.
      rewrite (computeForce_state applyGeneralizedForce a env m Hm).
      rewrite !entry_setForce.
      destruct (String.eqb (getName b) (getName a)); reflexivity.
    + now rewrite !(computeForce_detached applyGeneralizedForce a _ Hm).
  - intros m c Hm Hc.
    rewrite (computeForce_valid applyGeneralizedForce a
               (computeForce applyGeneralizedForce a env) m c Hm Hc).
    cbv zeta. simpl mobilityForces.
    rewrite settledForce_computeForce.
    rewrite (computeForce_valid applyGeneralizedForce a env m c Hm Hc)
      at 2.
    cbv zeta. simpl mobilityForces.
    rewrite (computeForce_state applyGeneralizedForce a env m Hm).
    reflexivity.
Qed.


End ActuatorEvaluation.

Section ActuatorEvaluationWitnesses.

Import CoordinateActuator.

Local Open Scope Q_scope.

(** A detached actuator and one with an unresolved coordinate: one report,
    and the mobility forces stay at zero. *)
Lemma computeForces_batch_effects_witness :
  mobilityForces
    (computeForces Sample.addInMobilityForce
       [new "knee"; Sample.toeActuator]
       (Sample.freshEnv (Sample.uniformState 0 0.5)))
  = [0; 0; 0]
  /\ cout
       (computeForces Sample.addInMobilityForce
          [new "knee"; Sample.toeActuator]
          (Sample.freshEnv (Sample.uniformState 0 0.5)))
     = [invalidCoordinateReport].
Proof.
  destruct (computeForces_batch_effects Sample.addInMobilityForce
              [new "knee"; Sample.toeActuator]
              (Sample.freshEnv (Sample.uniformState 0 0.5)))
    as (_ & Hcout & _ & Hmob).
  split.
  - apply Hmob. intros a [<- | [<- | []]]; reflexivity.
  - exact Hcout.
Defined.

(** Two evaluations of the knee actuator with control [0.5]: the force is
    added twice into the knee's entry. *)
Lemma computeForce_twice_witness :
  Forall2 Qeq
    (mobilityForces
       (computeForce Sample.addInMobilityForce Sample.kneeActuator
          (computeForce Sample.addInMobilityForce Sample.kneeActuator
             (Sample.freshEnv (Sample.uniformState 0 0.5)))))
    [0; 1; 0].
Proof.
  destruct (computeForce_twice Sample.addInMobilityForce
              Sample.kneeActuator Sample.kneeActuator
              (Sample.freshEnv (Sample.uniformState 0 0.5)))
    as [_ Htwice].
  rewrite (Htwice Sample.leg (mkCoordinate "knee" 1) eq_refl eq_refl).
  vm_compute. repeat constructor.
Defined.


End ActuatorEvaluationWitnesses.

Section ActuatorEndToEnd.

Import CoordinateActuator.

Local Open Scope Q_scope.

(** X16.  From construction to force.  An actuator constructed for a
    coordinate name has the default optimal force [1.0]; once set up in a
    model that has a coordinate of that name, a force computation without
    override caches the control itself as the force, applies it to the
    first coordinate of that name, writes nothing, and leaves a stress of
    [|control|]. *)
Theorem constructed_actuator_applies_its_control
    (applyGeneralizedForce :
       SimTK.State -> Coordinate -> Q -> SimTK.Vector -> SimTK.Vector)
    (aModel : Model) (aCoordinateName : string) (env : Env) :
  Set_.contains (updCoordinateSet aModel) aCoordinateName = true ->
  isForceOverriden (new aCoordinateName) (state env) = false ->
  exists a c,
    setup aModel (new aCoordinateName) = Returned a
    /\ Set_.get (updCoordinateSet aModel) aCoordinateName = Some c
    /\ Coordinate_getName c = aCoordinateName
    /\ getForce a (state (computeForce applyGeneralizedForce a env))
       == getControl a (state env)
    /\ mobilityForces (computeForce applyGeneralizedForce a env)
       = applyGeneralizedForce
           (state (computeForce applyGeneralizedForce a env)) c
           (getControl a (state env) * 1) (mobilityForces env)
    /\ cout (computeForce applyGeneralizedForce a env) = cout env
    /\ getStress a (state (computeForce applyGeneralizedForce a env))
       == Qabs (getControl a (state env)).
Proof.
  intros Hfound Hplain.
  destruct (contains_get _ _ Hfound) as (c & Hget & _ & Hname).
  assert (Hsetup :
            setup aModel (new aCoordinateName)
            = Returned
                (set_coord (Some c)
                   (Actuator_setup aModel (new aCoordinateName)))).
  { rewrite setup_found by exact Hfound. simpl coordinate.
    now rewrite Hget. }
  set (a := set_coord (Some c) (Actuator_setup aModel (new aCoordinateName)))
    in *.
  assert (Hsettled : settledForce a (state env)
                     = getControl a (state env) * 1).
  { unfold settledForce, computeActuation.
    change (isForceOverriden a (state env))
      with (isForceOverriden (new aCoordinateName) (state env)).
    now rewrite Hplain. }
  exists a, c.
  rewrite (computeForce_valid applyGeneralizedForce a env aModel c
             eq_refl eq_refl).
  cbv zeta. cbn [state mobilityForces cout].
  unfold getStress. rewrite getForce_setForce, Hsettled.
  repeat split; try assumption.
  - ring.
  - assert (E : getControl a (state env) * 1 / optimal_force a
                == getControl a (state env)) by (simpl; field).
    now rewrite E.
Qed.

Lemma constructed_actuator_applies_its_control_witness :
  exists a,
    setup Sample.leg (new "ankle") = Returned a
    /\ getStress a
         (state (computeForce Sample.addInMobilityForce a
                   (Sample.freshEnv (Sample.uniformState 0 (-0.5)))))
       == 0.5.
Proof.
  destruct (constructed_actuator_applies_its_control
              Sample.addInMobilityForce Sample.leg "ankle"
              (Sample.freshEnv (Sample.uniformState 0 (-0.5)))
              eq_refl eq_refl)
    as (a & c & Hsetup & _ & _ & _ & _ & _ & Hstress).
  exists a. split; [exact Hsetup |].
  rewrite Hstress. vm_compute. reflexivity.
Defined.

End ActuatorEndToEnd.

(* ================================================================== *)
(** * The force set of coordinate actuators created for a model         *)
(* ================================================================== *)

Section StringFacts.

Lemma length_append (s1 s2 : string) :
  String.length (s1 ++ s2) = (String.length s1 + String.length s2)%nat.
Proof.
  induction s1 as [| c s1 IH]; simpl.
  - reflexivity.
  - now rewrite IH.
Qed.

Lemma append_inj_l (s1 s2 suffix : string) :
  (s1 ++ suffix)%string = (s2 ++ suffix)%string -> s1 = s2.
Proof.
  revert s2. induction s1 as [| c s1 IH]; intros [| d s2] H; simpl in H.
  - reflexivity.
  - apply (f_equal String.length) in H. simpl in H.
    rewrite length_append in H. lia.
  - apply (f_equal String.length) in H. simpl in H.
    rewrite length_append in H. lia.
  - injection H as -> H. f_equal. now apply IH.
Qed.

End StringFacts.

Section ListMapFacts.

Variables (A B : Type) (f : A -> B).

Lemma NoDup_map_filter (p : A -> bool) (l : list A) :
  NoDup (map f l) -> NoDup (map f (filter p l)).
Proof.
  induction l as [| x l IH]; intros Hnd; simpl in *.
  - constructor.
  - inversion Hnd as [| y l' Hnotin Hnd']; subst.
    destruct (p x); simpl.
    + constructor; [| now apply IH].
      intros Hin. apply Hnotin.
      apply in_map_iff in Hin. destruct Hin as (z & Hz & Hzin).
      apply filter_In in Hzin. rewrite <- Hz. apply in_map. tauto.
    + now apply IH.
Qed.

Lemma NoDup_map_injective (g : B -> B) (l : list A) :
  (forall x y, g x = g y -> x = y) ->
  NoDup (map f l) -> NoDup (map (fun x => g (f x)) l).
Proof.
  intros Hinj. induction l as [| x l IH]; intros Hnd; simpl in *.
  - constructor.
  - inversion Hnd as [| y l' Hnotin Hnd']; subst.
    constructor; [| now apply IH].
    intros Hin. apply Hnotin.
    apply in_map_iff in Hin. destruct Hin as (z & Hz & Hzin).
    apply Hinj in Hz. rewrite <- Hz. now apply in_map.
Qed.

End ListMapFacts.

Section CreateFacts.

Import CoordinateActuator.

Local Open Scope Q_scope.

Variable isConstrained : Coordinate -> SimTK.State -> bool.

(** The coordinates the loop makes an actuator for. *)
Lemma appendCoordinateActuators_closed_form
    (s : SimTK.State) (cs : list Coordinate) (aOptimalForce : Q)
    (include : bool) (forces : list t) :
  appendCoordinateActuators isConstrained s cs aOptimalForce include forces
  = Returned
      (forces
         ++ map (fun c =>
                   mk (Coordinate_getName c ++ "_actuator") None (Some c)
                      (Coordinate_getName c) aOptimalForce)
              (filter (fun c => include || negb (isConstrained c s)) cs)).
Proof.
  revert forces. induction cs as [| c rest IH]; intros forces; simpl.
  - now rewrite app_nil_r.
  - destruct include, (isConstrained c s); simpl; rewrite IH;
      try reflexivity; now rewrite <- app_assoc.
Qed.

Lemma ForceSet_setup_members (aModel : Model) (cs : list Coordinate)
    (aOptimalForce : Q) :
  (forall c, In c cs -> In c (updCoordinateSet aModel)) ->
  ForceSet_setup aModel
    (map (fun c =>
            mk (Coordinate_getName c ++ "_actuator") None (Some c)
               (Coordinate_getName c) aOptimalForce) cs)
  = Returned
      (map (fun c =>
              mk (Coordinate_getName c ++ "_actuator") (Some aModel)
                 (Set_.get (updCoordinateSet aModel) (Coordinate_getName c))
                 (Coordinate_getName c) aOptimalForce) cs).
Proof.
  induction cs as [| c rest IH]; intros Hsub; simpl.
  - reflexivity.
  - rewrite setup_found
      by (simpl; apply contains_of_member; apply Hsub; now left).
    rewrite IH by (intros d Hd; apply Hsub; now right).
    reflexivity.
Qed.

Lemma CreateForceSet_closed_form
    (s : SimTK.State) (aModel : Model) (forceSet : list t)
    (aOptimalForce : Q) (include : bool) :
  CreateForceSetOfCoordinateActuatorsForModel isConstrained s aModel forceSet
    aOptimalForce include
  = Returned
      (map (fun c =>
              mk (Coordinate_getName c ++ "_actuator") (Some aModel)
                 (Set_.get (updCoordinateSet aModel) (Coordinate_getName c))
                 (Coordinate_getName c) aOptimalForce)
         (filter (fun c => include || negb (isConstrained c s))
            (updCoordinateSet aModel))).
Proof.
  unfold CreateForceSetOfCoordinateActuatorsForModel.
  rewrite appendCoordinateActuators_closed_form. simpl app.
  apply ForceSet_setup_members.
  intros c Hc. apply filter_In in Hc. tauto.
Qed.

Lemma CreateForceSet_binds_names
    (s : SimTK.State) (aModel : Model) (forceSet : list t)
    (aOptimalForce : Q) (include : bool) :
  NoDup (map Coordinate_getName (updCoordinateSet aModel)) ->
  (forall a,
     In a
       (receiver
          (CreateForceSetOfCoordinateActuatorsForModel isConstrained s
             aModel forceSet aOptimalForce include)) ->
     optimal_force a = aOptimalForce
     /\ _model a = Some aModel
     /\ isCoordinateValid a = true)
  /\ NoDup
       (map getName
          (receiver
             (CreateForceSetOfCoordinateActuatorsForModel isConstrained s
                aModel forceSet aOptimalForce include))).
Proof.
  intros Hnd. rewrite CreateForceSet_closed_form. simpl receiver. split.
  - intros a Ha. apply in_map_iff in Ha. destruct Ha as (c & <- & Hc).
    apply filter_In in Hc. destruct Hc as [Hc _].
    unfold isCoordinateValid. simpl.
    rewrite (get_of_member _ c Hnd Hc). repeat split.
  - rewrite map_map. simpl.
    apply (NoDup_map_injective Coordinate string Coordinate_getName
             (fun n => (n ++ "_actuator")%string)).
    + intros x y. apply append_inj_l.
    + now apply NoDup_map_filter.
Qed.

(** X11.  [CreateForceSetOfCoordinateActuatorsForModel] never throws,
    whatever the force set held before and whatever the optimal force
    (which is not validated).  It returns one actuator per coordinate of
    the model, in the order of the coordinate set, leaving out the
    constrained ones unless they are asked for; the actuator of a
    coordinate is named after it with the suffix "_actuator", carries the
    coordinate's name and the given optimal force, is attached to the
    model and passes [check]. *)
Theorem CreateForceSet_members
    (s : SimTK.State) (aModel : Model) (forceSet : list t)
    (aOptimalForce : Q) (include : bool) :
  exists forces,
    CreateForceSetOfCoordinateActuatorsForModel isConstrained s aModel
      forceSet aOptimalForce include
    = Returned forces
    /\ map getName forces
       = map (fun c => (Coordinate_getName c ++ "_actuator")%string)
           (filter (fun c => include || negb (isConstrained c s))
              (updCoordinateSet aModel))
    /\ map coordinate forces
       = map Coordinate_getName
           (filter (fun c => include || negb (isConstrained c s))
              (updCoordinateSet aModel))
    /\ (forall a, In a forces ->
          optimal_force a = aOptimalForce
          /\ _model a = Some aModel
          /\ check a = (true, [])).
Proof.
  eexists. split; [apply CreateForceSet_closed_form |].
  rewrite !map_map. simpl.
  split; [reflexivity | split; [reflexivity |]].
  intros a Ha. apply in_map_iff in Ha. destruct Ha as (c & <- & Hc).
  apply filter_In in Hc. destruct Hc as [Hc _].
  destruct (contains_get _ _ (contains_of_member _ c Hc))
    as (d & Hget & _ & _).
  unfold check, isCoordinateValid. simpl. rewrite Hget.
  repeat split.
Qed.

(** X12.  When the coordinate names of the model are distinct, the
    actuator created for a coordinate is bound to that very coordinate
    (with repeated names it is the first coordinate of the name that gets
    bound), and the created actuators have distinct names. *)
Theorem CreateForceSet_binds_each_coordinate
    (s : SimTK.State) (aModel : Model) (forceSet : list t)
    (aOptimalForce : Q) (include : bool) :
  map _coord
    (receiver
       (CreateForceSetOfCoordinateActuatorsForModel isConstrained s aModel
          forceSet aOptimalForce include))
  = map (fun c => Set_.get (updCoordinateSet aModel) (Coordinate_getName c))
      (filter (fun c => include || negb (isConstrained c s))
         (updCoordinateSet aModel))
  /\ (NoDup (map Coordinate_getName (updCoordinateSet aModel)) ->
      map _coord
        (receiver
           (CreateForceSetOfCoordinateActuatorsForModel isConstrained s
              aModel forceSet aOptimalForce include))
      = map Some
          (filter (fun c => include || negb (isConstrained c s))
             (updCoordinateSet aModel))
      /\ NoDup
           (map getName
              (receiver
                 (CreateForceSetOfCoordinateActuatorsForModel isConstrained
                    s aModel forceSet aOptimalForce include)))).
Proof.
  rewrite CreateForceSet_closed_form. simpl receiver.
  rewrite !map_map. simpl.
  split; [reflexivity |]. intros Hnd. split.
  - apply map_ext_in. intros c Hc. apply filter_In in Hc.
    apply get_of_member; tauto.
  - apply (NoDup_map_injective Coordinate string Coordinate_getName
             (fun n => (n ++ "_actuator")%string)).
    + intros x y. apply append_inj_l.
    + now apply NoDup_map_filter.
Qed.

Variable applyGeneralizedForce :
  SimTK.State -> Coordinate -> Q -> SimTK.Vector -> SimTK.Vector.

Lemma filter_none (A : Type) (p : A -> bool) (l : list A) :
  (forall x, In x l -> p x = false) -> filter p l = [].
Proof.
  induction l as [| x l IH]; intros H; simpl.
  - reflexivity.
  - rewrite (H x) by now left. apply IH. intros y Hy. apply H. now right.
Qed.

(** X13.  The created force set evaluates cleanly.  When the coordinate
    names of the model are distinct, a batch evaluation of the created
    actuators writes no invalid-coordinate report, and every one of them
    ends with its own force cached: its control times the given optimal
    force, unless it is overridden. *)
Theorem CreateForceSet_evaluates
    (s : SimTK.State) (aModel : Model) (forceSet : list t)
    (aOptimalForce : Q) (include : bool) (env : Env) :
  NoDup (map Coordinate_getName (updCoordinateSet aModel)) ->
  cout
    (computeForces applyGeneralizedForce
       (receiver
          (CreateForceSetOfCoordinateActuatorsForModel isConstrained s
             aModel forceSet aOptimalForce include)) env)
  = cout env
  /\ forall a,
       In a
         (receiver
            (CreateForceSetOfCoordinateActuatorsForModel isConstrained s
               aModel forceSet aOptimalForce include)) ->
       getForce a
         (state
            (computeForces applyGeneralizedForce
               (receiver
                  (CreateForceSetOfCoordinateActuatorsForModel
                     isConstrained s aModel forceSet aOptimalForce include))
               env))
       = settledForce a (state env)
       /\ (isForceOverriden a (state env) = false ->
           settledForce a (state env)
           = getControl a (state env) * aOptimalForce).
Proof.
  intros Hnd.
  destruct (CreateForceSet_binds_names s aModel forceSet aOptimalForce
              include Hnd) as [Hvalid Hnames].
  split.
  - rewrite computeForces_cout, filter_none.
    + simpl. now rewrite app_nil_r.
    + intros a Ha. destruct (Hvalid a Ha) as (_ & _ & Hv).
      rewrite Hv. apply andb_false_r.
  - intros a Ha. destruct (Hvalid a Ha) as (Hforce & Hmodel & _). split.
    + apply computeForces_caches_each; [exact Hnames | exact Ha |].
      rewrite Hmodel. discriminate.
    + intros Hover. unfold settledForce, computeActuation.
      now rewrite Hover, Hmodel, Hforce.
Qed.

End CreateFacts.

Section CreateWitnesses.

Import CoordinateActuator.

Local Open Scope Q_scope.

(** The leg with the knee constrained: actuators for the hip and the
    ankle only, whatever was in the force set. *)
Lemma CreateForceSet_members_witness :
  map getName
    (receiver
       (CreateForceSetOfCoordinateActuatorsForModel Sample.kneeLocked
          (Sample.uniformState 0 0) Sample.leg [Sample.toeActuator] 100
          false))
  = ["hip_actuator"%string; "ankle_actuator"%string].
Proof.
  destruct (CreateForceSet_members Sample.kneeLocked
              (Sample.uniformState 0 0) Sample.leg [Sample.toeActuator] 100
              false)
    as (forces & Hcreated & Hnames & _).
  rewrite Hcreated. simpl receiver. rewrite Hnames. reflexivity.
Defined.

Lemma CreateForceSet_binds_each_coordinate_witness :
  map _coord
    (receiver
       (CreateForceSetOfCoordinateActuatorsForModel Sample.kneeLocked
          (Sample.uniformState 0 0) Sample.leg [] 100 true))
  = [Some (mkCoordinate "hip" 0); Some (mkCoordinate "knee" 1);
     Some (mkCoordinate "ankle" 2)].
Proof.
  destruct (CreateForceSet_binds_each_coordinate Sample.kneeLocked
              (Sample.uniformState 0 0) Sample.leg [] 100 true)
    as [_ Hdistinct].
  destruct Hdistinct as [Hbound _].
  - repeat constructor; simpl; intuition discriminate.
  - rewrite Hbound. reflexivity.
Defined.

(** The three actuators created for the leg with optimal force [100],
    evaluated with every control at [0.5]: no report. *)
Lemma CreateForceSet_evaluates_witness :
  cout
    (computeForces Sample.addInMobilityForce
       (receiver
          (CreateForceSetOfCoordinateActuatorsForModel Sample.kneeLocked
             (Sample.uniformState 0 0) Sample.leg [] 100 true))
       (Sample.freshEnv (Sample.uniformState 0 0.5)))
  = [].
Proof.
  destruct (CreateForceSet_evaluates Sample.kneeLocked
              Sample.addInMobilityForce (Sample.uniformState 0 0)
              Sample.leg [] 100 true
              (Sample.freshEnv (Sample.uniformState 0 0.5)))
    as [Hcout _].
  - repeat constructor; simpl; intuition discriminate.
  - exact Hcout.
Defined.

End CreateWitnesses.

(* ================================================================== *)
(** * Properties of the example's synergy set-up                        *)
(* ================================================================== *)

Section SuffixFacts.

Import ExampleMocoInverse.

Lemma eqb_length_neq (s1 s2 : string) :
  String.length s1 <> String.length s2 -> String.eqb s1 s2 = false.
Proof.
  intros Hlen. apply String.eqb_neq. intros ->. now apply Hlen.
Qed.

Lemma compare_refl (s : string) : String.compare s s = Eq.
Proof.
  induction s as [| c s IH]; simpl.
  - reflexivity.
  - unfold Ascii.compare. now rewrite N.compare_refl.
Qed.

(** [endsWith] is what its name says. *)
Lemma endsWith_spec (suffix s : string) :
  endsWith suffix s = true <-> exists p, s = (p ++ suffix)%string.
Proof.
  induction s as [| c s IH]; cbn [endsWith].
  - rewrite orb_false_r. split.
    + intros H. apply String.eqb_eq in H. subst. now exists EmptyString.
    + intros ([| d p] & Hp); simpl in Hp.
      * subst. apply String.eqb_refl.
      * discriminate.
  - rewrite orb_true_iff, IH. split.
    + intros [H | (p & ->)].
      * apply String.eqb_eq in H. subst. now exists EmptyString.
      * now exists (String c p).
    + intros ([| d p] & Hp); simpl in Hp.
      * left. subst. apply String.eqb_refl.
      * injection Hp as -> ->. right. now exists p.
Qed.

(** The last two characters of a name decide whether it ends with a
    suffix of two characters. *)
Lemma last_two_characters (suffix name : string) :
  String.length suffix = 2%nat ->
  (2 <= String.length name)%nat ->
  String.eqb (substring (String.length name - 2) 2 name) suffix
  = endsWith suffix name.
Proof.
  intros Hsuffix.
  induction name as [| c s IH]; intros Hlen; simpl in Hlen.
  - lia.
  - destruct s as [| d s2]; simpl in Hlen; [lia |].
    destruct s2 as [| e s3].
    + cbn [String.length Nat.sub substring endsWith].
      rewrite (eqb_length_neq (String d "") suffix)
        by (rewrite Hsuffix; simpl; lia).
      rewrite (eqb_length_neq "" suffix) by (rewrite Hsuffix; simpl; lia).
      now rewrite !orb_false_r.
    + change (endsWith suffix (String c (String d (String e s3))))
        with (String.eqb (String c (String d (String e s3))) suffix
              || endsWith suffix (String d (String e s3))).
      rewrite (eqb_length_neq (String c (String d (String e s3))) suffix)
        by (rewrite Hsuffix; simpl; lia).
      rewrite orb_false_l, <- IH by (simpl; lia).
      cbn [String.length].
      replace (S (S (S (String.length s3))) - 2)%nat
        with (S (S (S (String.length s3)) - 2))%nat by lia.
      reflexivity.
Qed.

Lemma size_t_sub_small (len : N) :
  (2 <= len < 2 ^ 64)%N -> size_t_sub len 2 = (len - 2)%N.
Proof.
  intros H. unfold size_t_sub.
  replace (len + 2 ^ 64 - 2)%N with ((len - 2) + 1 * 2 ^ 64)%N by lia.
  rewrite N.Div0.mod_add. apply N.mod_small. lia.
Qed.

Lemma size_t_sub_wraps (len : N) :
  (len < 2)%N -> (len < size_t_sub len 2)%N.
Proof.
  intros H. unfold size_t_sub. rewrite N.mod_small by lia. lia.
Qed.

(** The test the example makes on a name of at least two characters. *)
Lemma string_compare_suffix (suffix name : string) :
  String.length suffix = 2%nat ->
  (2 <= String.length name)%nat ->
  (N.of_nat (String.length name) < 2 ^ 64)%N ->
  string_compare name (size_t_sub (N.of_nat (String.length name)) 2) 2
    suffix
  = Some (String.compare
            (substring (String.length name - 2) 2 name) suffix)
  /\ (String.compare (substring (String.length name - 2) 2 name) suffix = Eq
      <-> endsWith suffix name = true).
Proof.
  intros Hsuffix Hlen Hmax. split.
  - unfold string_compare. rewrite size_t_sub_small by lia.
    replace (N.of_nat (String.length name)
             <? N.of_nat (String.length name) - 2)%N
      with false by (symmetry; apply N.ltb_ge; lia).
    do 2 f_equal. f_equal. lia.
  - rewrite <- (last_two_characters suffix name) by assumption.
    split; intros H.
    + apply String.compare_eq_iff in H. rewrite H. apply String.eqb_refl.
    + apply String.eqb_eq in H. rewrite H. apply compare_refl.
Qed.

(** The test the example makes on a shorter name. *)
Lemma string_compare_short (suffix name : string) :
  (String.length name < 2)%nat ->
  string_compare name (size_t_sub (N.of_nat (String.length name)) 2) 2
    suffix
  = None.
Proof.
  intros Hlen. unfold string_compare.
  pose proof (size_t_sub_wraps (N.of_nat (String.length name))) as Hwrap.
  replace (N.of_nat (String.length name)
           <? size_t_sub (N.of_nat (String.length name)) 2)%N
    with true by (symmetry; apply N.ltb_lt; apply Hwrap; lia).
  reflexivity.
Qed.

(** No name ends with both "_l" and "_r". *)
Lemma endsWith_left_not_right (name : string) :
  (2 <= String.length name)%nat ->
  endsWith "_l" name = true -> endsWith "_r" name = false.
Proof.
  intros Hlen Hl.
  rewrite <- (last_two_characters "_l" name) in Hl by (auto; reflexivity).
  rewrite <- (last_two_characters "_r" name) by (auto; reflexivity).
  apply String.eqb_eq in Hl. rewrite Hl. reflexivity.
Qed.

End SuffixFacts.

Section CollectFacts.

Import ExampleMocoInverse.

(** A name the example can test: at least two characters, and a length
    that fits [size_t]. *)
Lemma collectControlNames_step (muscle : Muscle) (rest : list Muscle)
    (left right : list string) :
  (2 <= String.length (Muscle_getName muscle))%nat ->
  (N.of_nat (String.length (Muscle_getName muscle)) < 2 ^ 64)%N ->
  collectControlNames (muscle :: rest) left right
  = collectControlNames rest
      (left
         ++ map getAbsolutePathString
              (filter (fun m => endsWith "_l" (Muscle_getName m)) [muscle]))
      (right
         ++ map getAbsolutePathString
              (filter (fun m => endsWith "_r" (Muscle_getName m)) [muscle])).
Proof.
  intros Hlen Hmax. cbn [collectControlNames filter].
  destruct (string_compare_suffix "_l" (Muscle_getName muscle) eq_refl
              Hlen Hmax) as [-> Hl].
  destruct (string_compare_suffix "_r" (Muscle_getName muscle) eq_refl
              Hlen Hmax) as [-> Hr].
  destruct (endsWith "_l" (Muscle_getName muscle)) eqn:El.
  - rewrite (proj2 Hl eq_refl).
    rewrite (endsWith_left_not_right _ Hlen El). simpl.
    now rewrite app_nil_r.
  - assert (Hnl : String.compare
                    (substring (String.length (Muscle_getName muscle) - 2) 2
                       (Muscle_getName muscle)) "_l" <> Eq).
    { intros E. apply Hl in E. discriminate. }
    destruct (endsWith "_r" (Muscle_getName muscle)) eqn:Er.
    + rewrite (proj2 Hr eq_refl). simpl. rewrite app_nil_r.
      destruct (String.compare _ "_l"); [congruence | |]; reflexivity.
    + assert (Hnr : String.compare
                      (substring (String.length (Muscle_getName muscle) - 2)
                         2 (Muscle_getName muscle)) "_r" <> Eq).
      { intros E. apply Hr in E. discriminate. }
      simpl. rewrite !app_nil_r.
      destruct (String.compare _ "_l"); [congruence | |];
        destruct (String.compare _ "_r"); congruence.
Qed.

Lemma collectControlNames_prefix (pre rest : list Muscle)
    (left right : list string) :
  (forall m, In m pre ->
     (2 <= String.length (Muscle_getName m))%nat
     /\ (N.of_nat (String.length (Muscle_getName m)) < 2 ^ 64)%N) ->
  collectControlNames (pre ++ rest) left right
  = collectControlNames rest
      (left
         ++ map getAbsolutePathString
              (filter (fun m => endsWith "_l" (Muscle_getName m)) pre))
      (right
         ++ map getAbsolutePathString
              (filter (fun m => endsWith "_r" (Muscle_getName m)) pre)).
Proof.
  revert left right. induction pre as [| m pre IH]; intros left right Hok.
  - simpl. now rewrite !app_nil_r.
  - change ((m :: pre) ++ rest) with (m :: (pre ++ rest)).
    destruct (Hok m (or_introl eq_refl)) as [Hlen Hmax].
    rewrite (collectControlNames_step m (pre ++ rest) left right Hlen Hmax).
    rewrite IH by (intros m' Hm'; apply Hok; now right).
    change (m :: pre) with ([m] ++ pre).
    rewrite !filter_app, !map_app, !app_assoc. reflexivity.
Qed.

(** X14.  The example sorts the muscles by the last two characters of
    their names.  When every name has at least two characters, the left
    control names are the absolute paths of the muscles whose name ends
    with "_l", the right ones those of the muscles whose name ends with
    "_r", both in the order of the muscles, and no muscle is in both.
    The first muscle whose name has fewer than two characters makes the
    subtraction [name.length() - 2] wrap around and the comparison throw
    [std::out_of_range], whatever follows it. *)
Theorem collectControlNames_by_suffix
    (pre post : list Muscle) (short : Muscle) :
  (forall m, In m pre ->
     (2 <= String.length (Muscle_getName m))%nat
     /\ (N.of_nat (String.length (Muscle_getName m)) < 2 ^ 64)%N) ->
  collectControlNames pre [] []
  = Returned
      (map getAbsolutePathString
         (filter (fun m => endsWith "_l" (Muscle_getName m)) pre),
       map getAbsolutePathString
         (filter (fun m => endsWith "_r" (Muscle_getName m)) pre))
  /\ (forall m, In m pre ->
        endsWith "_l" (Muscle_getName m) = true ->
        endsWith "_r" (Muscle_getName m) = false)
  /\ ((String.length (Muscle_getName short) < 2)%nat ->
      collectControlNames (pre ++ short :: post) [] []
      = Threw out_of_range
          (map getAbsolutePathString
             (filter (fun m => endsWith "_l" (Muscle_getName m)) pre),
           map getAbsolutePathString
             (filter (fun m => endsWith "_r" (Muscle_getName m)) pre))).
Proof.
  intros Hok. split; [| split].
  - rewrite <- (app_nil_r pre) at 1.
    rewrite (collectControlNames_prefix pre [] [] [] Hok). reflexivity.
  - intros m Hm. apply endsWith_left_not_right. now apply Hok.
  - intros Hshort.
    rewrite (collectControlNames_prefix pre (short :: post) [] [] Hok).
    cbn [collectControlNames app].
    now rewrite (string_compare_short "_l" (Muscle_getName short) Hshort).
Qed.

(** Five muscles followed by one named "x". *)
Lemma collectControlNames_by_suffix_witness :
  collectControlNames Sample.muscles [] []
  = Returned
      (["/forceset/soleus_l"%string; "/forceset/tibant_l"%string],
       ["/forceset/soleus_r"%string; "/forceset/tibant_r"%string])
  /\ fails
       (collectControlNames
          (Sample.muscles ++ [mkMuscle "x" "/forceset/x"]) [] [])
     = true.
Proof.
  destruct (collectControlNames_by_suffix Sample.muscles []
              (mkMuscle "x" "/forceset/x"))
    as (Hsorted & _ & Hthrows).
  - intros m Hm. simpl in Hm.
    repeat (destruct Hm as [<- | Hm]; [split; [simpl; lia | reflexivity] |]).
    contradiction.
  - split.
    + rewrite Hsorted. reflexivity.
    + rewrite Hthrows by (simpl; lia). reflexivity.
Defined.

End CollectFacts.

Section AssemblyFacts.

Import Matrix Factorizer ExampleMocoInverse.

Local Open Scope Q_scope.

(** A matrix of [r] rows of [c] entries each. *)
Lemma build_rows (r c : nat) (f : nat -> nat -> Q) :
  List.length (build r c f) = r
  /\ Forall (fun row => List.length row = c) (build r c f).
Proof.
  unfold build. split.
  - now rewrite length_map, length_seq.
  - apply Forall_forall. intros row Hrow.
    apply in_map_iff in Hrow. destruct Hrow as (i & <- & _).
    now rewrite length_map, length_seq.
Qed.

(** After at least one iteration the returned [H] has [K] rows of [M]
    entries. *)
Lemma iterateUntil_H_rows
    (T M K : nat) (floor : Q) (maxIterations : nat) (tolerance : Q)
    (V : Matrix.t) (WHm : Matrix.t * Matrix.t) (prevError : Q) :
  List.length (snd WHm) = K
  /\ Forall (fun row => List.length row = M) (snd WHm)
  \/ (0 < maxIterations)%nat ->
  List.length
    (H (iterateUntil T M K floor maxIterations tolerance V WHm prevError))
  = K
  /\ Forall (fun row => List.length row = M)
       (H (iterateUntil T M K floor maxIterations tolerance V WHm
             prevError)).
Proof.
  revert WHm prevError.
  induction maxIterations as [| n IH]; intros WHm prevError Hstart.
  - destruct Hstart as [Hrows | Hpos]; [exact Hrows | lia].
  - cbn [iterateUntil].
    destruct (Qlt_le_dec _ tolerance).
    + simpl. apply build_rows.
    + apply IH. left. simpl. apply build_rows.
Qed.

Lemma addActuators_fields
    (controlNames : list string) (controller : SynergyController.t) :
  SynergyController.actuators (addActuators controlNames controller)
  = SynergyController.actuators controller ++ controlNames
  /\ SynergyController.synergy_vectors
       (addActuators controlNames controller)
     = SynergyController.synergy_vectors controller.
Proof.
  unfold addActuators. revert controller.
  induction controlNames as [| name rest IH]; intros controller; simpl.
  - now rewrite app_nil_r.
  - destruct (IH (SynergyController.addActuator name controller))
      as [Hacts Hvecs].
    rewrite Hacts, Hvecs. simpl. now rewrite <- app_assoc.
Qed.

Lemma addSynergyVectors_rows
    (Hm : Matrix.t) (i remaining : nat) (controller : SynergyController.t) :
  (forall k, (k < remaining)%nat ->
     List.length (nth (i + k) Hm [])
     = SynergyController.getNumActuators controller) ->
  addSynergyVectors Hm i remaining controller
  = Returned
      (SynergyController.mk (SynergyController.actuators controller)
         (SynergyController.synergy_vectors controller
            ++ map (fun k => nth k Hm []) (seq i remaining))).
Proof.
  revert i controller.
  induction remaining as [| n IH]; intros i controller Hrows; simpl.
  - rewrite app_nil_r. now destruct controller.
  - unfold SynergyController.addSynergyVector.
    pose proof (Hrows O ltac:(lia)) as Hfirst.
    rewrite Nat.add_0_r in Hfirst. rewrite Hfirst, Nat.eqb_refl.
    rewrite IH.
    + simpl. now rewrite <- app_assoc.
    + intros k Hk.
      replace (S i + k)%nat with (i + S k)%nat by lia.
      rewrite Hrows by lia. reflexivity.
Qed.

Lemma map_nth_seq (A : Type) (l : list A) (d : A) :
  map (fun k => nth k l d) (seq 0 (List.length l)) = l.
Proof.
  induction l as [| x l IH]; simpl.
  - reflexivity.
  - f_equal. rewrite <- seq_shift, map_map. exact IH.
Qed.

Lemma sum_le_one_weighted (n : nat) (e w : nat -> Q) :
  (forall k, (k < n)%nat -> 0 <= e k <= 1) ->
  (forall k, (k < n)%nat -> 0 <= w k) ->
  0 <= sum n (fun k => e k * w k) <= sum n w.
Proof.
  intros He Hw. split.
  - apply sum_nonneg. intros k Hk.
    apply Qmult_le_0_compat; [apply He | apply Hw]; exact Hk.
  - apply sum_le. intros k Hk.
    destruct (He k Hk) as [_ Hle]. specialize (Hw k Hk).
    assert (0 <= (1 - e k) * w k)
      by (apply Qmult_le_0_compat; [lra | exact Hw]).
    lra.
Qed.

(** X15.  The example's construction of a leg's synergy controller from
    the factorization of the leg's controls cannot fail.  With as many
    columns of controls as control names (and non-negative controls and
    seeds, positive floor), no [addSynergyVector] meets a dimension
    mismatch; the controller ends with the control names as its actuators
    and the rows of the returned [H] as its synergy vectors, all of whose
    weights are [>= 0]; and with the excitations within the bounds the
    example sets, [0] and [1], every control it computes lies between [0]
    and the sum of the actuator's weights. *)
Theorem synergyControllerOfLeg_is_built
    (floor : Q) (W0 H0 controls : Matrix.t) (controlNames : list string)
    (numSynergies : nat) :
  0 < floor ->
  nonnegative W0 -> nonnegative H0 -> nonnegative controls ->
  ncol controls = List.length controlNames ->
  exists controller,
    synergyControllerOfLeg floor W0 H0 controls controlNames numSynergies
    = Returned controller
    /\ SynergyController.actuators controller = controlNames
    /\ SynergyController.synergy_vectors controller
       = H (factorizeMatrixNonNegative floor W0 H0 controls numSynergies
              1000 1e-6)
    /\ SynergyController.getNumSynergies controller = numSynergies
    /\ nonnegative (SynergyController.synergy_vectors controller)
    /\ forall (excitation : nat -> SimTK.State -> Q) (s : SimTK.State) j,
         (forall k, 0 <= excitation k s <= 1) ->
         (j < List.length controlNames)%nat ->
         0 <= nth j
                (SynergyController.computeControls controller excitation s)
                0
         <= sum numSynergies
              (fun k => nth j (nth k (SynergyController.synergy_vectors
                                        controller) []) 0).
Proof.
  intros Hfloor HW HH HV Hcols.
  unfold synergyControllerOfLeg.
  set (factors :=
         factorizeMatrixNonNegative floor W0 H0 controls numSynergies 1000
           1e-6).
  assert (Hrows : List.length (H factors) = numSynergies
                  /\ Forall (fun row => List.length row = ncol controls)
                       (H factors)).
  { unfold factors, factorizeMatrixNonNegative.
    apply iterateUntil_H_rows. right. lia. }
  destruct Hrows as [Hlen Hrow].
  assert (Hnonneg : nonnegative (H factors)).
  { unfold factors, factorizeMatrixNonNegative.
    now apply iterateUntil_nonnegative. }
  destruct (addActuators_fields controlNames SynergyController.new)
    as [Hacts Hvecs].
  simpl in Hacts, Hvecs.
  rewrite addSynergyVectors_rows.
  - rewrite Hacts, Hvecs. simpl app.
    replace (seq 0 numSynergies) with (seq 0 (List.length (H factors)))
      by now rewrite Hlen.
    rewrite map_nth_seq.
    eexists. split; [reflexivity |]. simpl.
    split; [reflexivity | split; [reflexivity |]].
    split; [exact Hlen | split; [exact Hnonneg |]].
    intros excitation s j Hbounds Hj.
    unfold SynergyController.computeControls,
      SynergyController.getNumActuators. simpl.
    rewrite nth_map_seq by exact Hj.
    unfold SynergyController.controlValue, SynergyController.getNumSynergies,
      SynergyController.weight. simpl. unfold SimTK.Vector.
    rewrite Hlen.
    apply sum_le_one_weighted.
    + intros k _. apply Hbounds.
    + intros k _. apply (nonnegative_elt (H factors) k j Hnonneg).
  - intros k Hk. unfold SynergyController.getNumActuators.
    rewrite Hacts, <- Hcols. simpl.
    rewrite Forall_forall in Hrow. apply Hrow. apply nth_In. lia.
Qed.

Lemma synergyControllerOfLeg_is_built_witness :
  exists controller,
    synergyControllerOfLeg Sample.smallFloor Sample.seedW Sample.seedH
      Sample.excitations ["/forceset/soleus_l"%string;
                          "/forceset/tibant_l"%string] 1
    = Returned controller
    /\ SynergyController.getNumSynergies controller = 1%nat.
Proof.
  assert (Hfloor : 0 < Sample.smallFloor) by reflexivity.
  assert (HW : nonnegative Sample.seedW)
    by (repeat constructor; discriminate).
  assert (HH : nonnegative Sample.seedH)
    by (repeat constructor; discriminate).
  assert (HV : nonnegative Sample.excitations)
    by (repeat constructor; discriminate).
  destruct (synergyControllerOfLeg_is_built Sample.smallFloor Sample.seedW
              Sample.seedH Sample.excitations
              ["/forceset/soleus_l"%string; "/forceset/tibant_l"%string] 1
              Hfloor HW HH HV eq_refl)
    as (controller & Hbuilt & _ & _ & Hcount & _).
  exists controller. split; [exact Hbuilt | exact Hcount].
Defined.

End AssemblyFacts.
